(** * ngrx-orchestrator: action groups and path-addressed reducers

    A shallow embedding of [src/index.ts].  The file follows the source from
    top to bottom: the action-group synthesizer [createDataFlowActions], the
    two path helpers [getNestedState] and [getNestedStatePathName], and the
    reducer builder [onActionGroup] with its four handlers.

    JavaScript objects live in a heap of cells addressed by locations, so that
    reference identity ([===]) and in-place mutation can be told apart from
    structural equality.  Immer's [produce] is embedded as a copy-on-write
    draft over that heap. *)

From Stdlib Require Import ZArith Ascii String DecimalString.
From stdpp Require Import base list strings.

#[local] Set Warnings "-register-all".
Set Default Proof Using "Type".

Local Open Scope string_scope.
Local Open Scope list_scope.

(** ** JavaScript string helpers *)

Module Js.

(** [s.split('.')]: always at least one segment; an empty string splits
    into one empty segment. *)
Fixpoint split (sep : ascii) (s : string) : list string :=
  match s with
  | EmptyString => [ EmptyString ]
  | String c rest =>
      if Ascii.eqb c sep then EmptyString :: split sep rest
      else match split sep rest with
           | seg :: segs => String c seg :: segs
           | [] => [ String c EmptyString ]
           end
  end.

(** [xs.join('.')]: the empty array joins to the empty string. *)
Definition join (sep : string) (xs : list string) : string :=
  String.concat sep xs.

(** [xs.pop()]: the removed last element ([None] stands for [undefined] on
    an empty array) together with the array as it is left behind. *)
Definition pop (xs : list string) : option string * list string :=
  match xs with
  | [] => (None, [])
  | _ => (last xs, removelast xs)
  end.

(** [a ?? b] where the left operand is a possibly-undefined string. *)
Definition nullish (a : option string) (b : string) : string :=
  match a with
  | Some x => x
  | None => b
  end.

(** A string value is never nullish, whatever its contents. *)
Definition nullish_str (a b : string) : string := nullish (Some a) b.

Definition dot : ascii := "."%char.

End Js.

(** ** Action-group synthesizer *)

Record GroupedActionsConfig := {
  source : string;
  action : string
}.

(** An action creator is represented by the type string it was created with;
    the props it was declared with only exist at the type level.  A
    dispatched action is an object holding its props and its [type], see
    [create_action] below. *)
Record ActionGroup := {
  load : string;
  loadSuccess : string;
  loadFailure : string;
  reset : string
}.

Definition createDataFlowActions (config : GroupedActionsConfig) : ActionGroup :=
  {| load := "[" +:+ source config +:+ "] " +:+ action config;
     loadSuccess := "[API] " +:+ action config +:+ " Success";
     loadFailure := "[API] " +:+ action config +:+ " Failure";
     reset := "[" +:+ source config +:+ "] " +:+ action config +:+ " Reset" |}.

Definition identifiers (g : ActionGroup) : list string :=
  [ load g; loadSuccess g; loadFailure g; reset g ].

(** ** Path decomposition *)

Record PathName := {
  propertyName : string;
  parentName : string;
  pathWithoutProperty : string
}.

Definition invalid_path_message (stateSelector : string) : string :=
  stateSelector +:+
  " is not a valid property path. Provide the name of the property that holds your data in state, not the name of the wrapper.".

(** The console is a list of messages; [getNestedStatePathName] returns what
    it printed with [console.error] next to its result. *)
Definition getNestedStatePathName (stateSelector : string)
  : PathName * list string :=
  let possibleNestedPath := Js.split Js.dot stateSelector in
  let isNestedPath := bool_decide (1 < length possibleNestedPath) in
  let console := if isNestedPath then [] else [ invalid_path_message stateSelector ] in
  let '(popped, possibleNestedPath) := Js.pop possibleNestedPath in
  let propertyName := Js.nullish popped stateSelector in
  let pathWithoutProperty :=
    Js.nullish_str (Js.join "." possibleNestedPath) stateSelector in
  let '(popped, possibleNestedPath) := Js.pop possibleNestedPath in
  let parentName := Js.nullish popped stateSelector in
  ({| propertyName := propertyName;
      parentName := parentName;
      pathWithoutProperty := pathWithoutProperty |}, console).

(** ** Values and the object heap *)

Definition loc := nat.

(** A JavaScript value: a primitive, or a reference to a heap cell. *)
Inductive val :=
| VUndefined
| VNull
| VBool (b : bool)
| VNum (n : Z)
| VStr (s : string)
| VRef (l : loc).

(** A heap cell: a plain object (its own properties, in insertion order) or
    an array (its elements, and any named properties put on it). *)
Inductive cell :=
| Obj (fields : list (string * val))
| Arr (elems : list val) (props : list (string * val)).

(** Allocation appends, so a location is an index and [length h] is the next
    fresh one. *)
Abbreviation heap := (list cell).

Inductive error :=
| TypeError     (* property access or assignment on a non-object *)
| RangeError    (* invalid array length *)
| ImmerError.   (* raised by immer itself *)

Inductive result (A : Type) :=
| Ok (a : A)
| Throw (e : error).
Arguments Ok {A} a.
Arguments Throw {A} e.

(** Exceptions propagate through sequencing: [x ← r; k] runs [k] on the value
    of [r] and rethrows what [r] threw. *)
#[global] Instance result_bind : MBind result := fun A B k r =>
  match r with
  | Ok a => k a
  | Throw e => Throw e
  end.

#[global] Instance result_ret : MRet result := fun A a => Ok a.

#[global] Instance result_fmap : FMap result := fun A B f r =>
  match r with
  | Ok a => Ok (f a)
  | Throw e => Throw e
  end.

#[global] Instance val_eq_dec : EqDecision val.
Proof. solve_decision. Defined.

(** [Object.is] on the values of this model (numbers are integers, so there
    is neither NaN nor a signed zero). *)
Definition same_value (v w : val) : bool := bool_decide (v = w).

Definition alloc (h : heap) (c : cell) : heap * val := (h ++ [c], VRef (length h)).

(** *** Own properties *)

Fixpoint field_get (k : string) (fs : list (string * val)) : option val :=
  match fs with
  | [] => None
  | (k', v) :: rest => if String.eqb k' k then Some v else field_get k rest
  end.

(** Assignment keeps the position of an existing key and appends a new one. *)
Fixpoint field_set (k : string) (v : val) (fs : list (string * val))
  : list (string * val) :=
  match fs with
  | [] => [ (k, v) ]
  | (k', v') :: rest =>
      if String.eqb k' k then (k, v) :: rest else (k', v') :: field_set k v rest
  end.

Definition string_of_nat (n : nat) : string :=
  NilEmpty.string_of_uint (Nat.to_uint n).

(** A property key is an array index when it is the canonical decimal
    spelling of a natural number. *)
Definition index_key (k : string) : option nat :=
  match NilEmpty.uint_of_string k with
  | Some d =>
      let n := Nat.of_uint d in
      if String.eqb (string_of_nat n) k then Some n else None
  | None => None
  end.

(** [c[k]] on a heap cell.  Properties inherited from the prototypes
    ([toString], [constructor], the array methods) are not part of the
    model: states are plain data. *)
Definition cell_get (c : cell) (k : string) : val :=
  match c with
  | Obj fs => default VUndefined (field_get k fs)
  | Arr es ps =>
      match index_key k with
      | Some i => default VUndefined (es !! i)
      | None =>
          if String.eqb k "length" then VNum (Z.of_nat (length es))
          else default VUndefined (field_get k ps)
      end
  end.

Definition string_get (s : string) (k : string) : val :=
  match index_key k with
  | Some i =>
      match String.get i s with
      | Some c => VStr (String c EmptyString)
      | None => VUndefined
      end
  | None =>
      if String.eqb k "length" then VNum (Z.of_nat (String.length s))
      else VUndefined
  end.

(** [v[k]]: reading a property of [undefined] or [null] throws; a dangling
    reference cannot arise in a well-formed heap and is made to throw too. *)
Definition get_prop (h : heap) (v : val) (k : string) : result val :=
  match v with
  | VUndefined | VNull => Throw TypeError
  | VBool _ | VNum _ => Ok VUndefined
  | VStr s => Ok (string_get s k)
  | VRef l =>
      match h !! l with
      | Some c => Ok (cell_get c k)
      | None => Throw TypeError
      end
  end.

Definition array_set (i : nat) (v : val) (es : list val) : list val :=
  if bool_decide (i < length es) then <[i := v]> es
  else es ++ replicate (i - length es) VUndefined ++ [ v ].

Definition array_resize (n : nat) (es : list val) : list val :=
  take n es ++ replicate (n - length es) VUndefined.

(** [c[k] = v] on a plain (non-draft) cell. *)
Definition cell_set (c : cell) (k : string) (v : val) : result cell :=
  match c with
  | Obj fs => Ok (Obj (field_set k v fs))
  | Arr es ps =>
      match index_key k with
      | Some i => Ok (Arr (array_set i v es) ps)
      | None =>
          if String.eqb k "length" then
            match v with
            | VNum n =>
                if bool_decide (0 <= n)%Z then Ok (Arr (array_resize (Z.to_nat n) es) ps)
                else Throw RangeError
            | _ => Throw RangeError
            end
          else Ok (Arr es (field_set k v ps))
      end
  end.

(** ** Path traversal *)

(** [getNestedState] is written once in the source and used both on a plain
    state and on an immer draft; here it is generic in how a property is
    read from the thing being traversed. *)
Section Traversal.
Context {A : Type} (index : A -> string -> result A).

(** [for (let path of possibleNestedPath) nestedState = nestedState[path]] *)
Fixpoint walk (possibleNestedPath : list string) (nestedState : A) : result A :=
  match possibleNestedPath with
  | [] => Ok nestedState
  | path :: rest => next ← index nestedState path; walk rest next
  end.

Definition getNestedState (stateSelector : string) (nestedState : A) : result A :=
  let possibleNestedPath := Js.split Js.dot stateSelector in
  let isNestedPath := bool_decide (1 < length possibleNestedPath) in
  if negb isNestedPath then index nestedState stateSelector
  else walk possibleNestedPath nestedState.
End Traversal.

(** ** Immer drafts

    [produce] comes from the immer library; what follows embeds the part of
    its behaviour that the four recipes of [onActionGroup] exercise: reading
    a property of a draft hands out a draft of the child, the first write
    that changes something makes a shallow copy and marks the node and its
    ancestors, finalising turns marked nodes into new objects and leaves
    the others shared with the base state.  Freezing of finished states is
    not represented.

    A draft node stands for one object of the base state.  [copy_] is the
    shallow copy that immer makes on the first effective write; a node is
    modified exactly when it has one. *)
Record node := {
  base_ : loc;
  copy_ : option cell
}.

(** What a recipe holds in a variable: a plain value, or a draft proxy. *)
Inductive focus :=
| Plain (v : val)
| Drafted (n : node).

(** The recipes of this program hold one position at a time, so the draft
    tree is kept as a zipper: the focus and the draft nodes it was reached
    through, innermost first, each with the key that was followed. *)
Record cursor := {
  at_ : focus;
  parents : list (node * string)
}.

Definition latest (h : heap) (n : node) : option cell :=
  match copy_ n with
  | Some c => Some c
  | None => h !! base_ n
  end.

Definition fresh_node (l : loc) : node := {| base_ := l; copy_ := None |}.

(** A value met inside a [produce] call that started when the heap had [b]
    cells: objects older than the call belong to the base state and are
    only ever seen through a draft proxy; younger ones are plain. *)
Definition enter (b : nat) (v : val) : focus :=
  match v with
  | VRef l => if bool_decide (l < b) then Drafted (fresh_node l) else Plain v
  | _ => Plain v
  end.

Definition focus_val (f : focus) : val :=
  match f with
  | Plain v => v
  | Drafted n => VRef (base_ n)
  end.

(** Reading [x[k]].  On a draft, a value that is still the one of the base
    object is handed out as a child draft; anything else as it is. *)
Definition cursor_get (b : nat) (h : heap) (x : cursor) (k : string) : result cursor :=
  match at_ x with
  | Plain v =>
      v' ← get_prop h v k;
      Ok {| at_ := enter b v';
            parents := match enter b v' with Plain _ => parents x | Drafted _ => [] end |}
  | Drafted n =>
      match latest h n, h !! base_ n with
      | Some c, Some c0 =>
          let value := cell_get c k in
          let child :=
            match value with
            | VRef l =>
                if same_value value (cell_get c0 k) then Drafted (fresh_node l)
                else Plain value
            | _ => Plain value
            end in
          Ok {| at_ := child; parents := (n, k) :: parents x |}
      | _, _ => Throw TypeError
      end
  end.

Definition has_own (c : cell) (k : string) : bool :=
  match c with
  | Obj fs => bool_decide (is_Some (field_get k fs))
  | Arr es ps =>
      match index_key k with
      | Some i => bool_decide (i < length es)
      | None => String.eqb k "length" || bool_decide (is_Some (field_get k ps))
      end
  end.

(** An array draft only accepts indices and [length]. *)
Definition draft_accepts (c : cell) (k : string) : bool :=
  match c with
  | Obj _ => true
  | Arr _ _ => bool_decide (is_Some (index_key k)) || String.eqb k "length"
  end.

(** Writing [x[k] = v].  The module is strict-mode code, so assigning to a
    property of a primitive throws like it does for [undefined] and [null].
    On a plain object the cell is overwritten in place; on a draft the write
    goes to the node's copy, which is created unless the write would leave
    the base value as it is.  Frozen objects are not modelled. *)
Definition cursor_set (h : heap) (x : cursor) (k : string) (v : val)
  : result (cursor * heap) :=
  match at_ x with
  | Plain (VRef l) =>
      match h !! l with
      | Some c => c' ← cell_set c k v; Ok (x, <[l := c']> h)
      | None => Throw TypeError
      end
  | Plain _ => Throw TypeError
  | Drafted n =>
      match latest h n, h !! base_ n with
      | Some c, Some c0 =>
          if negb (draft_accepts c k) then Throw ImmerError
          else if bool_decide (copy_ n = None)
                  && same_value v (cell_get c k)
                  && (negb (same_value v VUndefined) || has_own c0 k)
          then Ok (x, h)
          else
            c' ← cell_set c k v;
            Ok ({| at_ := Drafted {| base_ := base_ n; copy_ := Some c' |};
                   parents := parents x |}, h)
      | _, _ => Throw TypeError
      end
  end.

Definition node_modified (n : node) : bool := bool_decide (is_Some (copy_ n)).

Definition cursor_modified (x : cursor) : bool :=
  match at_ x with
  | Drafted n => node_modified n
  | Plain _ => false
  end || existsb (fun p => node_modified (fst p)) (parents x).

(** Finalisation: a modified node becomes a new heap cell, an unmodified one
    stays the base object. *)
Definition finalize_node (h : heap) (n : node) : heap * val * bool :=
  match copy_ n with
  | Some c => (h ++ [ c ], VRef (length h), true)
  | None => (h, VRef (base_ n), false)
  end.

(** A parent of a changed child is copied too, with the child's key pointing
    at the child's new cell. *)
Fixpoint finalize_parents (h : heap) (child : val) (changed : bool)
  (ps : list (node * string)) : result (heap * val) :=
  match ps with
  | [] => Ok (h, child)
  | (n, k) :: rest =>
      if changed then
        match latest h n with
        | Some c =>
            c' ← cell_set c k child;
            finalize_parents (h ++ [ c' ]) (VRef (length h)) true rest
        | None => Throw TypeError
        end
      else
        let '(h', r, changed') := finalize_node h n in
        finalize_parents h' r changed' rest
  end.

Definition finalize (h : heap) (base : val) (x : cursor) : result (heap * val) :=
  match at_ x with
  | Drafted n =>
      let '(h', r, changed) := finalize_node h n in
      finalize_parents h' r changed (parents x)
  | Plain _ => finalize_parents h base false (parents x)
  end.

(** A recipe receives the heap size at the start of the call and the root
    (a draft when the base is an object), and yields the heap, the position
    it ended at and the value it returned. *)
Definition recipe := nat -> heap -> cursor -> result (heap * cursor * val).

(** [produce(base, recipe)].  A recipe that returns nothing, or the root
    draft itself, gets the finalised draft; any other return value replaces
    the state, which immer refuses when the draft was modified as well. *)
Definition produce (h : heap) (base : val) (r : recipe) : result (heap * val) :=
  let b := length h in
  '(h1, x, returned) ← r b h {| at_ := enter b base; parents := [] |};
  if same_value returned VUndefined || same_value returned base then
    finalize h1 base x
  else if cursor_modified x then Throw ImmerError
  else Ok (h1, returned).

(** ** Reducer handlers *)

(** A reducer registered with [on]: called with the current state and the
    dispatched action (an object carrying [type] and the action's props). *)
Definition reducer := heap -> val -> val -> result (heap * val).

(** The optional [reducerFunction]: it is handed the state (through its
    draft) and the success data, and hands back the draft or a state it has
    built.  It may allocate; functions that edit the draft in place are not
    represented. *)
Definition reducer_function := heap -> val -> val -> result (heap * val).

Definition on (type : string) (r : reducer) : string * reducer := (type, r).

Definition empty_array : cell := Arr [] [].

Section Handlers.
Variables (pathWithoutProperty propertyName : string).
Variable initialData : val.
Variable reducerFunction : option reducer_function.

Definition onLoad_reducer : reducer := fun h state _ =>
  produce h state (fun b h draft =>
    nestedState ← getNestedState (cursor_get b h) pathWithoutProperty draft;
    '(nestedState, h) ← cursor_set h nestedState "loading" (VBool true);
    let '(h, empty) := alloc h empty_array in
    '(nestedState, h) ← cursor_set h nestedState "errors" empty;
    Ok (h, nestedState, VUndefined)).

Definition onLoadSuccess_reducer : reducer := fun h state data =>
  produce h state (fun b h draft =>
    '(h, nextState) ←
      match reducerFunction with
      | Some f =>
          data_data ← get_prop h data "data";
          '(h, next) ← f h state data_data;
          Ok (h, {| at_ := enter b next; parents := [] |})
      | None => Ok (h, draft)
      end;
    nestedState ← getNestedState (cursor_get b h) pathWithoutProperty nextState;
    '(nestedState, h) ←
      match reducerFunction with
      | None =>
          data_data ← get_prop h data "data";
          cursor_set h nestedState propertyName data_data
      | Some _ => Ok (nestedState, h)
      end;
    let '(h, empty) := alloc h empty_array in
    '(nestedState, h) ← cursor_set h nestedState "errors" empty;
    '(nestedState, h) ← cursor_set h nestedState "loading" (VBool false);
    Ok (h, nestedState, focus_val (at_ nextState))).

Definition onLoadFailure_reducer : reducer := fun h state errors =>
  produce h state (fun b h draft =>
    nestedState ← getNestedState (cursor_get b h) pathWithoutProperty draft;
    '(nestedState, h) ← cursor_set h nestedState "loading" (VBool false);
    errors_errors ← get_prop h errors "errors";
    '(nestedState, h) ← cursor_set h nestedState "errors" errors_errors;
    Ok (h, nestedState, VUndefined)).

Definition onReset_reducer : reducer := fun h state _ =>
  produce h state (fun b h draft =>
    nestedState ← getNestedState (cursor_get b h) pathWithoutProperty draft;
    '(nestedState, h) ← cursor_set h nestedState propertyName initialData;
    let '(h, empty) := alloc h empty_array in
    '(nestedState, h) ← cursor_set h nestedState "errors" empty;
    '(nestedState, h) ← cursor_set h nestedState "loading" (VBool false);
    Ok (h, nestedState, VUndefined)).
End Handlers.

(** [onActionGroup] reads the initial data once, from the state it is given
    (in heap [h]), and returns the four registrations together with what was
    printed on the console.  It throws when the initial read does; the
    console has been written to by then. *)
Definition onActionGroup (actionGroup : ActionGroup) (stateSelector : string)
  (h : heap) (state : val) (reducerFunction : option reducer_function)
  : result (list (string * reducer)) * list string :=
  let '(names, console) := getNestedStatePathName stateSelector in
  let pathWithoutProperty := pathWithoutProperty names in
  let propertyName := propertyName names in
  (initialData ← getNestedState (get_prop h) stateSelector state;
  let onLoad := on (load actionGroup) (onLoad_reducer pathWithoutProperty) in
  let onLoadSuccess :=
    on (loadSuccess actionGroup)
       (onLoadSuccess_reducer pathWithoutProperty propertyName reducerFunction) in
  let onLoadFailure :=
    on (loadFailure actionGroup) (onLoadFailure_reducer pathWithoutProperty) in
  let onReset :=
    on (reset actionGroup)
       (onReset_reducer pathWithoutProperty propertyName initialData) in
  Ok [ onLoad; onLoadSuccess; onLoadFailure; onReset ], console).

(** ** Structural view of a state

    Object and array literals, and the structure read back from the heap:
    two states are deep-equal when they read back the same. *)
Inductive json :=
| JUndefined
| JNull
| JBool (b : bool)
| JNum (n : Z)
| JStr (s : string)
| JArr (elems : list json)
| JObj (fields : list (string * json)).

(** Evaluating a literal allocates its objects, innermost first. *)
Fixpoint literal (j : json) (h : heap) : heap * val :=
  match j with
  | JUndefined => (h, VUndefined)
  | JNull => (h, VNull)
  | JBool b => (h, VBool b)
  | JNum n => (h, VNum n)
  | JStr s => (h, VStr s)
  | JArr elems =>
      let '(h, vs) :=
        (fix go (js : list json) (h : heap) : heap * list val :=
           match js with
           | [] => (h, [])
           | j :: rest =>
               let '(h, v) := literal j h in
               let '(h, vs) := go rest h in
               (h, v :: vs)
           end) elems h in
      alloc h (Arr vs [])
  | JObj fields =>
      let '(h, fs) :=
        (fix go (js : list (string * json)) (h : heap)
           : heap * list (string * val) :=
           match js with
           | [] => (h, [])
           | (k, j) :: rest =>
               let '(h, v) := literal j h in
               let '(h, fs) := go rest h in
               (h, (k, v) :: fs)
           end) fields h in
      alloc h (Obj fs)
  end.

(** Reading a value back, to a depth of [fuel] nested containers.  Arrays
    with named properties have no literal form and read back as nothing. *)
Fixpoint reify (fuel : nat) (h : heap) (v : val) : option json :=
  match v with
  | VUndefined => Some JUndefined
  | VNull => Some JNull
  | VBool b => Some (JBool b)
  | VNum n => Some (JNum n)
  | VStr s => Some (JStr s)
  | VRef l =>
      match fuel with
      | O => None
      | S fuel =>
          match h !! l with
          | Some (Obj fs) =>
              JObj <$> mapM (fun kv => pair (fst kv) <$> reify fuel h (snd kv)) fs
          | Some (Arr es []) => JArr <$> mapM (reify fuel h) es
          | _ => None
          end
      end
  end.

(** ** Vocabulary of the statements *)

(** The container addressed by [path] in state [state] of heap [h] is the
    plain object at [l], with own properties [fs]. *)
Definition container_at (path : string) (h : heap) (state : val)
  (l : loc) (fs : list (string * val)) : Prop :=
  getNestedState (get_prop h) path state = Ok (VRef l) /\ h !! l = Some (Obj fs).

(** The values met on the way, from the start to the end of the path. *)
Fixpoint trace (h : heap) (possibleNestedPath : list string) (v : val)
  : result (list val) :=
  match possibleNestedPath with
  | [] => Ok [ v ]
  | path :: rest =>
      next ← get_prop h v path;
      vs ← trace h rest next;
      Ok (v :: vs)
  end.

(** An object that did not exist when the heap had [b] cells. *)
Definition fresh_ref (b : nat) (v : val) : Prop :=
  exists l, v = VRef l /\ b <= l.

(** [spine h' b h segs l l' c']: in [h'], the object at [l'] is a copy made
    after the heap had [b] cells of the object at [l] in [h], in which the
    path [segs] leads through further such copies to a cell [c']; every
    copied cell is the old one with the followed key pointing at the next
    copy. *)
Fixpoint spine (h' : heap) (b : nat) (h : heap) (segs : list string)
  (l l' : loc) (c' : cell) : Prop :=
  b <= l' /\
  match segs with
  | [] => h' !! l' = Some c'
  | k :: rest =>
      exists c child child' c2,
        h !! l = Some c /\ cell_get c k = VRef child /\
        cell_set c k (VRef child') = Ok c2 /\ h' !! l' = Some c2 /\
        spine h' b h rest child child' c'
  end.

(** No cell refers to a location beyond the heap. *)
Definition cell_refs (c : cell) : list val :=
  match c with
  | Obj fs => snd <$> fs
  | Arr es ps => es ++ (snd <$> ps)
  end.

Definition closed (h : heap) : Prop :=
  forall l c l', h !! l = Some c -> VRef l' ∈ cell_refs c -> l' < length h.

(** The heap [h'] still has every object of [h], unchanged: nothing that
    existed in [h] was mutated. *)
Definition preserves (h h' : heap) : Prop :=
  forall l c, h !! l = Some c -> h' !! l = Some c.

(** *** Invariants of the draft zipper *)

(** [chain h l ps root segs]: the draft at [l] was reached from the root
    draft along [segs], through the unmodified nodes [ps] (innermost first). *)
Fixpoint chain (h : heap) (l : loc) (ps : list (node * string))
  (root : loc) (segs : list string) : Prop :=
  match ps with
  | [] => l = root /\ segs = []
  | (n, k) :: rest =>
      copy_ n = None /\
      exists c segs',
        h !! base_ n = Some c /\ cell_get c k = VRef l /\
        segs = segs' ++ [ k ] /\ chain h (base_ n) rest root segs'
  end.

(** [x] is a draft of the plain object at [l] (own properties [fs0] in the
    base state), currently showing the properties [fs]. *)
Definition draft_of (h : heap) (x : cursor) (l : loc)
  (fs0 fs : list (string * val)) (ps : list (node * string)) : Prop :=
  exists n,
    x = {| at_ := Drafted n; parents := ps |} /\ base_ n = l /\
    h !! l = Some (Obj fs0) /\ latest h n = Some (Obj fs) /\
    (copy_ n = None -> fs = fs0).

(** The two ways a patched state [state'] relates to [state]: nothing was
    written and it is [state] itself, or the objects on the path were copied
    (after the heap had [b] cells) down to a container showing [fs']. *)
Definition patched (path : string) (b : nat) (h : heap) (state : val)
  (h' : heap) (state' : val) (fs' : list (string * val)) : Prop :=
  (state' = state /\ exists l, container_at path h' state' l fs') \/
  (exists root root',
     state = VRef root /\ state' = VRef root' /\
     spine h' b h (Js.split Js.dot path) root root' (Obj fs')).

Definition focus_modified (x : cursor) : bool :=
  match at_ x with
  | Drafted n => node_modified n
  | Plain _ => false
  end.

(** A recipe only ever holds plain references to objects made during the
    call; what is older it holds as a draft. *)
Definition plain_is_new (b : nat) (x : cursor) : Prop :=
  forall l, at_ x = Plain (VRef l) -> b <= l.

Definition unmodified (x : cursor) : Prop :=
  forall n, at_ x = Drafted n -> copy_ n = None.

(** A reducer function that allocates but does not mutate. *)
Definition allocates_only (f : reducer_function) : Prop :=
  forall h state data h1 next, f h state data = Ok (h1, next) -> preserves h h1.

(** Every object from the root of [state'] to the container addressed by
    [path] was made after the heap had [b] cells. *)
Definition copied_along (path : string) (b : nat) (h' : heap) (state' : val) : Prop :=
  exists vs, trace h' (Js.split Js.dot path) state' = Ok vs /\ Forall (fresh_ref b) vs.

(** A check for [closed] that computes. *)
Definition val_in (n : nat) (v : val) : bool :=
  match v with
  | VRef l => bool_decide (l < n)
  | _ => true
  end.

Definition closedb (h : heap) : bool :=
  forallb (fun c => forallb (val_in (length h)) (cell_refs c)) h.

(** ** Dispatching *)

(** What an action creator returns: the props with the action's [type]. *)
Definition create_action (type : string) (props : list (string * val)) (h : heap)
  : heap * val :=
  alloc h (Obj (props ++ [ ("type", VStr type) ])).

(** The three actions that drive a data flow, with their payloads. *)
Inductive event :=
| LoadEvent (param : val)
| LoadSuccessEvent (data : val)
| LoadFailureEvent (errors : val).

Section Dispatch.
Variables (actionGroup : ActionGroup).
Variables (onLoad onLoadSuccess onLoadFailure : string * reducer).

(** One transition: the action is created, then reduced. *)
Definition transition (st : heap * val) (e : event) : result (heap * val) :=
  let '(h, state) := st in
  match e with
  | LoadEvent param =>
      let '(h, a) := create_action (load actionGroup) [ ("param", param) ] h in
      snd onLoad h state a
  | LoadSuccessEvent data =>
      let '(h, a) := create_action (loadSuccess actionGroup) [ ("data", data) ] h in
      snd onLoadSuccess h state a
  | LoadFailureEvent errors =>
      let '(h, a) := create_action (loadFailure actionGroup) [ ("errors", errors) ] h in
      snd onLoadFailure h state a
  end.

Fixpoint transitions (st : heap * val) (es : list event) : result (heap * val) :=
  match es with
  | [] => Ok st
  | e :: rest => st' ← transition st e; transitions st' rest
  end.
End Dispatch.

(** ** The running example *)

(** The state of the second end-to-end scenario, allocated in an empty heap,
    and the action group of the first. *)
Definition list_state : json :=
  JObj [ ("list", JObj [ ("data", JArr []);
                         ("loading", JBool false);
                         ("errors", JArr []) ]) ].

Definition todo_actions : ActionGroup :=
  createDataFlowActions {| source := "Todo"; action := "Load todo list" |}.

Definition idle : heap * val := literal list_state [].

(** Applying a reducer to a state, with the action given as a literal. *)
Definition apply_to (r : string * reducer) (payload : json) (st : heap * val)
  : result (heap * val) :=
  let '(h, a) := literal payload (fst st) in
  snd r h (snd st) a.

(** The structure of a state (deep equality is equality of views). *)
Definition view (st : heap * val) : option json := reify 16 (fst st) (snd st).

(** A reducer function in the style of the README:
    [(state, data) => ({...state, list: {...state.list, data}})]. *)
Definition spread_list_data : reducer_function := fun h state data =>
  list ← get_prop h state "list";
  match state, list with
  | VRef r, VRef l =>
      match h !! r, h !! l with
      | Some (Obj state_fields), Some (Obj list_fields) =>
          let '(h, list') := alloc h (Obj (field_set "data" data list_fields)) in
          Ok (alloc h (Obj (field_set "list" list' state_fields)))
      | _, _ => Throw TypeError
      end
  | _, _ => Throw TypeError
  end.

(** A state with the data at the top level, next to the bookkeeping. *)
Definition flat_state : json :=
  JObj [ ("data", JArr []); ("loading", JBool false); ("errors", JArr []) ].

(** A reducer function that returns a new root but leaves the container
    where it was: [(state, data) => ({...state, count: data})]. *)
Definition spread_count : reducer_function := fun h state data =>
  match state with
  | VRef r =>
      match h !! r with
      | Some (Obj state_fields) => Ok (alloc h (Obj (field_set "count" data state_fields)))
      | _ => Throw TypeError
      end
  | _ => Throw TypeError
  end.

(** Disjointness of the identifiers of any two different configs, as the
    specification words it. *)
Definition identifier_sets_disjoint : Prop :=
  forall c1 c2 : GroupedActionsConfig,
    c1 <> c2 ->
    source c1 <> EmptyString -> action c1 <> EmptyString ->
    source c2 <> EmptyString -> action c2 <> EmptyString ->
    forall id : string,
      id ∈ identifiers (createDataFlowActions c1) ->
      id ∉ identifiers (createDataFlowActions c2).

(** ** Counting characters *)

(** How often a character occurs in a string. *)
Fixpoint occurrences (c : ascii) (s : string) : nat :=
  match s with
  | EmptyString => 0
  | String d rest => (if Ascii.eqb d c then 1 else 0) + occurrences c rest
  end.

(** ** Drafts and the state they stand for *)

(** A position reached by reading through a draft of the state shows the
    value [v] reached by the same reads in the state itself: an unmodified
    draft of the object, or the value as it is when it is not an object of
    the heap. *)
Definition mirrors (h : heap) (x : cursor) (v : val) : Prop :=
  match at_ x with
  | Drafted n => copy_ n = None /\ v = VRef (base_ n)
  | Plain w => w = v /\ forall l, v = VRef l -> h !! l = None
  end.

Definition is_obj (c : cell) : bool :=
  match c with
  | Obj _ => true
  | Arr _ _ => false
  end.

(** [x] is the draft of an array. *)
Definition array_draft (h : heap) (x : cursor) : Prop :=
  exists n c c0,
    at_ x = Drafted n /\ latest h n = Some c /\ h !! base_ n = Some c0 /\
    is_obj c = false.

(** ** What a transition leaves in the container *)

(** The root object of [state'] has, under every key but the first segment
    of the path, the very value the root of the old state had there. *)
Definition siblings_kept (path : string) (root_fields : list (string * val))
  (h' : heap) (state' : val) : Prop :=
  exists root' root_fields',
    state' = VRef root' /\ h' !! root' = Some (Obj root_fields') /\
    forall k, head (Js.split Js.dot path) <> Some k ->
              field_get k root_fields' = field_get k root_fields.

(** [loading] after an event. *)
Definition loading_after (e : event) : bool :=
  match e with
  | LoadEvent _ => true
  | LoadSuccessEvent _ | LoadFailureEvent _ => false
  end.

(** * Properties *)

(** ** Strings *)

#[local] Arguments String.append : simpl nomatch.

Section StringFacts.

Lemma string_app_assoc (a b c : string) : (a +:+ b) +:+ c = a +:+ (b +:+ c).
Proof. induction a as [|x a IH]; simpl; [done | by rewrite IH]. Qed.

Lemma string_length_app (a b : string) :
  String.length (a +:+ b) = String.length a + String.length b.
Proof. induction a as [|x a IH]; simpl; [done | by rewrite IH]. Qed.

Lemma string_app_inv_head (a x y : string) : a +:+ x = a +:+ y -> x = y.
Proof. induction a as [|c a IH]; simpl; [done | intros [= H]; auto]. Qed.

Lemma string_app_inv_tail (a x y : string) : x +:+ a = y +:+ a -> x = y.
Proof.
  revert y; induction x as [|c x IH]; intros [|d y] H; simpl in *.
  - done.
  - apply (f_equal String.length) in H; simpl in H.
    rewrite string_length_app in H; lia.
  - apply (f_equal String.length) in H; simpl in H.
    rewrite string_length_app in H; lia.
  - injection H as -> H. f_equal. by apply IH.
Qed.

(** Splitting never yields an empty array. *)
Lemma split_nonempty (sep : ascii) (s : string) : Js.split sep s <> [].
Proof.
  induction s as [|c s IH]; simpl; [done|].
  destruct (Ascii.eqb c sep); [done|].
  by destruct (Js.split sep s).
Qed.

(** Joining what was split gives the string back. *)
Lemma join_split (s : string) : Js.join "." (Js.split Js.dot s) = s.
Proof.
  induction s as [|c s IH]; [done|].
  simpl. destruct (Ascii.eqb_spec c Js.dot) as [->|Hc].
  - unfold Js.join in *. simpl.
    pose proof (split_nonempty Js.dot s) as Hne.
    destruct (Js.split Js.dot s) as [|seg segs]; [done|].
    simpl in *. by rewrite IH.
  - pose proof (split_nonempty Js.dot s) as Hne.
    destruct (Js.split Js.dot s) as [|seg segs]; [done|].
    unfold Js.join in *. simpl in *.
    destruct segs; simpl in *; by rewrite <- IH.
Qed.

Lemma split_single (s x : string) : Js.split Js.dot s = [ x ] -> x = s.
Proof. intros H. rewrite <- (join_split s), H. done. Qed.

Lemma join_snoc (xs : list string) (x : string) :
  xs <> [] -> Js.join "." (xs ++ [ x ]) = Js.join "." xs +:+ "." +:+ x.
Proof.
  induction xs as [|y ys IH]; [done|]. intros _.
  destruct ys as [|z zs].
  - done.
  - change (Js.join "." ((y :: z :: zs) ++ [x]))
      with (y +:+ "." +:+ Js.join "." ((z :: zs) ++ [x])).
    rewrite IH by done.
    change (Js.join "." (y :: z :: zs)) with (y +:+ "." +:+ Js.join "." (z :: zs)).
    by rewrite !string_app_assoc.
Qed.

End StringFacts.

(** ** Action identifiers *)

(** C8: the four identifiers are built from the config exactly as
    "[source] action", "[API] action Success", "[API] action Failure" and
    "[source] action Reset"; the Todo config gives the four strings of the
    first end-to-end scenario. *)
Theorem createDataFlowActions_identifiers :
  (forall config : GroupedActionsConfig,
     let g := createDataFlowActions config in
     load g = "[" +:+ source config +:+ "] " +:+ action config /\
     loadSuccess g = "[API] " +:+ action config +:+ " Success" /\
     loadFailure g = "[API] " +:+ action config +:+ " Failure" /\
     reset g = "[" +:+ source config +:+ "] " +:+ action config +:+ " Reset") /\
  identifiers (createDataFlowActions {| source := "Todo"; action := "Load todo list" |})
  = [ "[Todo] Load todo list";
      "[API] Load todo list Success";
      "[API] Load todo list Failure";
      "[Todo] Load todo list Reset" ].
Proof. split; [intros config g; by repeat split | reflexivity]. Qed.

(** The claim of C7, as stated, fails: two configs with the same action and different
    sources share their success and failure identifiers. *)
Lemma identifier_sets_collide : ~ identifier_sets_disjoint.
Proof.
  intros H.
  apply (H {| source := "Todo"; action := "Load" |}
           {| source := "User"; action := "Load" |}
           ltac:(done) ltac:(done) ltac:(done) ltac:(done) ltac:(done)
           "[API] Load Success").
  - unfold identifiers; simpl. rewrite !elem_of_cons. auto.
  - unfold identifiers; simpl. rewrite !elem_of_cons. auto.
Qed.

(** C7, amended: the success identifiers of two configs coincide exactly when
    the actions do, and so do the failure identifiers; between configs that
    agree on one of source and action, the load identifiers coincide exactly
    when the other component does, and so do the reset identifiers. *)
Theorem identifiers_compare (c1 c2 : GroupedActionsConfig) :
  let g1 := createDataFlowActions c1 in
  let g2 := createDataFlowActions c2 in
  (loadSuccess g1 = loadSuccess g2 <-> action c1 = action c2) /\
  (loadFailure g1 = loadFailure g2 <-> action c1 = action c2) /\
  (action c1 = action c2 ->
     (load g1 = load g2 <-> source c1 = source c2) /\
     (reset g1 = reset g2 <-> source c1 = source c2)) /\
  (source c1 = source c2 ->
     (load g1 = load g2 <-> action c1 = action c2) /\
     (reset g1 = reset g2 <-> action c1 = action c2)).
Proof.
  destruct c1 as [s1 a1], c2 as [s2 a2]; simpl.
  repeat split; try (intros; subst; done); intros H0; subst;
    injection H0 as H0;
    repeat match type of H0 with
           | String _ _ = String _ _ => injection H0 as H0
           end;
    first [ by apply string_app_inv_tail in H0
          | apply string_app_inv_head in H0;
            repeat match type of H0 with
                   | String _ _ = String _ _ => injection H0 as H0
                   end;
            first [ done | by apply string_app_inv_tail in H0 ] ].
Qed.

(** ** Own properties and cells *)

Section Fields.
Implicit Types (k : string) (v : val) (fs : list (string * val)).

Lemma field_get_set_eq k v fs : field_get k (field_set k v fs) = Some v.
Proof.
  induction fs as [|[k' v'] fs IH]; simpl.
  - by rewrite String.eqb_refl.
  - destruct (String.eqb k' k) eqn:E; simpl.
    + by rewrite String.eqb_refl.
    + by rewrite E.
Qed.

Lemma field_get_set_ne k k' v fs :
  k' <> k -> field_get k' (field_set k v fs) = field_get k' fs.
Proof.
  intros Hne. induction fs as [|[k0 v0] fs IH]; simpl.
  - destruct (String.eqb_spec k k'); [congruence | done].
  - destruct (String.eqb_spec k0 k) as [->|]; simpl.
    + destruct (String.eqb_spec k k'); [congruence | done].
    + destruct (String.eqb k0 k'); [done | apply IH].
Qed.

(** Writing the value a property already has changes nothing. *)
Lemma field_set_same k v fs : field_get k fs = Some v -> field_set k v fs = fs.
Proof.
  induction fs as [|[k0 v0] fs IH]; simpl; [done|].
  destruct (String.eqb_spec k0 k) as [->|]; [by intros [= ->]|].
  intros H. by rewrite IH.
Qed.

Lemma index_key_spec k i : index_key k = Some i -> string_of_nat i = k.
Proof.
  unfold index_key. destruct (NilEmpty.uint_of_string k); [|done].
  destruct (String.eqb_spec (string_of_nat (Nat.of_uint u)) k); [|done].
  by intros [= <-].
Qed.

Lemma cell_set_ref_ok (c : cell) k l v :
  cell_get c k = VRef l ->
  exists c', cell_set c k v = Ok c' /\ cell_get c' k = v.
Proof.
  destruct c as [fs|es ps]; simpl.
  - intros _. eexists; split; [done|]. simpl. by rewrite field_get_set_eq.
  - destruct (index_key k) as [i|] eqn:Ei.
    + intros H. eexists; split; [done|]. simpl. rewrite Ei.
      destruct (es !! i) as [x|] eqn:Ex; [|done].
      apply lookup_lt_Some in Ex. unfold array_set.
      rewrite bool_decide_true by done.
      by rewrite list_lookup_insert_eq.
    + destruct (String.eqb k "length") eqn:El; [done|].
      intros _. eexists; split; [done|]. simpl.
      by rewrite Ei, El, field_get_set_eq.
Qed.

End Fields.

(** ** Heaps *)

Section Heaps.
Implicit Types (h : heap) (l : loc) (c : cell).

Lemma preserves_lookup h h' l c : preserves h h' -> h !! l = Some c -> h' !! l = Some c.
Proof. intros Hp Hl. by apply Hp. Qed.

Lemma preserves_refl h : preserves h h.
Proof. by intros l c. Qed.

Lemma preserves_trans h1 h2 h3 : preserves h1 h2 -> preserves h2 h3 -> preserves h1 h3.
Proof. intros H12 H23 l c Hl. by apply H23, H12. Qed.

Lemma preserves_alloc h c : preserves h (h ++ [ c ]).
Proof. intros l c' Hl. by apply lookup_app_l_Some. Qed.

Lemma preserves_length h h' : preserves h h' -> length h <= length h'.
Proof.
  intros Hp. destruct (decide (length h <= length h')) as [|Hgt]; [done|].
  destruct (lookup_lt_is_Some_2 h (length h')) as [c Hc]; [lia|].
  apply Hp, lookup_lt_Some in Hc. lia.
Qed.

Lemma lookup_alloc h c : (h ++ [ c ]) !! length h = Some c.
Proof. by rewrite lookup_app_r, Nat.sub_diag. Qed.

Lemma get_prop_preserves h h' v k w :
  preserves h h' -> get_prop h v k = Ok w -> get_prop h' v k = Ok w.
Proof.
  intros Hp. destruct v as [| | | | |l]; simpl; try done.
  destruct (h !! l) as [c|] eqn:E; [|done].
  by rewrite (preserves_lookup _ _ _ _ Hp E).
Qed.

(** Only a reference can be followed to a reference. *)
Lemma get_prop_ref h v k l :
  get_prop h v k = Ok (VRef l) ->
  exists r c, v = VRef r /\ h !! r = Some c /\ cell_get c k = VRef l.
Proof.
  destruct v as [| | | |s|r]; simpl; try done.
  - unfold string_get. destruct (index_key k); [destruct (get _ _)|destruct (String.eqb _ _)]; done.
  - destruct (h !! r) as [c|] eqn:E; [|done]. intros [= H]. eauto.
Qed.

End Heaps.

#[local] Hint Resolve preserves_refl : core.

(** ** Traversal *)

Section TraversalFacts.
Context {A : Type} (index : A -> string -> result A).

Lemma bind_Ok_r {B} (r : result B) : (x ← r; Ok x) = r.
Proof. by destruct r. Qed.

(** Both branches of [getNestedState] follow the segments in order. *)
Lemma getNestedState_walk (stateSelector : string) (x : A) :
  getNestedState index stateSelector x
  = walk index (Js.split Js.dot stateSelector) x.
Proof.
  unfold getNestedState.
  destruct (Js.split Js.dot stateSelector) as [|p [|q segs]] eqn:E.
  - by apply split_nonempty in E.
  - apply split_single in E as ->. simpl. by rewrite bind_Ok_r.
  - done.
Qed.

Lemma walk_app (xs ys : list string) (x : A) :
  walk index (xs ++ ys) x = (y ← walk index xs x; walk index ys y).
Proof.
  revert x; induction xs as [|p xs IH]; intros x; simpl; [done|].
  destruct (index x p); simpl; [apply IH | done].
Qed.
End TraversalFacts.

Section DraftFacts.
Implicit Types (h : heap) (l : loc) (n : node) (x : cursor).

Lemma walk_ref h segs v l :
  walk (get_prop h) segs v = Ok (VRef l) -> exists r, v = VRef r.
Proof.
  revert v; induction segs as [|p rest IH]; intros v; simpl.
  - intros [= ->]; eauto.
  - destruct (get_prop h v p) as [w|] eqn:E; [|done]. simpl. intros Hw.
    destruct (IH _ Hw) as [r ->].
    apply get_prop_ref in E as (r0 & _ & -> & _). eauto.
Qed.

Lemma walk_preserves h h' segs v w :
  preserves h h' ->
  walk (get_prop h) segs v = Ok w -> walk (get_prop h') segs v = Ok w.
Proof.
  intros Hp. revert v; induction segs as [|p rest IH]; intros v; simpl; [done|].
  destruct (get_prop h v p) as [u|] eqn:E; [|done]. simpl.
  rewrite (get_prop_preserves _ _ _ _ _ Hp E). simpl. apply IH.
Qed.

(** Walking the draft of a state visits the drafts of the objects that
    walking the state itself visits. *)
Lemma walk_draft b h root segs n ps pre l :
  copy_ n = None ->
  chain h (base_ n) ps root pre ->
  walk (get_prop h) segs (VRef (base_ n)) = Ok (VRef l) ->
  exists ps',
    walk (cursor_get b h) segs {| at_ := Drafted n; parents := ps |}
    = Ok {| at_ := Drafted (fresh_node l); parents := ps' |} /\
    chain h l ps' root (pre ++ segs).
Proof.
  revert n ps pre. induction segs as [|p rest IH]; intros n ps pre Hn Hch; simpl.
  - intros [= <-]. exists ps. rewrite app_nil_r. split; [|done].
    destruct n as [nb nc]; simpl in *; by subst.
  - destruct (h !! base_ n) as [c|] eqn:Hc; [|done]. simpl. intros Hw.
    destruct (walk_ref _ _ _ _ Hw) as [l1 Hl1].
    unfold cursor_get; simpl. unfold latest. rewrite Hn, Hc, Hl1. simpl.
    unfold same_value. rewrite bool_decide_true by done. simpl.
    rewrite Hl1 in Hw.
    destruct (IH (fresh_node l1) ((n, p) :: ps) (pre ++ [ p ])) as (ps' & Hw' & Hch');
      [done | | exact Hw |].
    + simpl. split; [done|]. exists c, pre. by repeat split.
    + exists ps'. split; [exact Hw'|]. by rewrite <- app_assoc in Hch'.
Qed.

(** Resolving the container on the root draft. *)
Lemma resolve_draft b path h state l fs0 :
  container_at path h state l fs0 ->
  (forall root, state = VRef root -> root < b) ->
  exists root ps,
    state = VRef root /\
    getNestedState (cursor_get b h) path
      {| at_ := enter b state; parents := [] |}
    = Ok {| at_ := Drafted (fresh_node l); parents := ps |} /\
    chain h l ps root (Js.split Js.dot path) /\
    draft_of h {| at_ := Drafted (fresh_node l); parents := ps |} l fs0 fs0 ps.
Proof.
  intros [Hw Hl] Hb. rewrite getNestedState_walk in Hw.
  destruct (walk_ref _ _ _ _ Hw) as [root ->].
  specialize (Hb root eq_refl).
  destruct (walk_draft b h root (Js.split Js.dot path) (fresh_node root) [] [] l eq_refl)
    as (ps & Hw' & Hch); [done | exact Hw |].
  exists root, ps. repeat split; try done.
  - rewrite getNestedState_walk. simpl. by rewrite bool_decide_true.
  - exists (fresh_node l). by repeat split.
Qed.

(** The root of a state whose container resolves is an object of the heap. *)
Lemma container_root path h state l fs0 :
  container_at path h state l fs0 ->
  forall root, state = VRef root -> root < length h.
Proof.
  intros [Hw Hl] root ->. rewrite getNestedState_walk in Hw.
  pose proof (split_nonempty Js.dot path) as Hne.
  destruct (Js.split Js.dot path) as [|p rest]; [done|]. simpl in Hw.
  destruct (h !! root) eqn:E; [|done]. by apply lookup_lt_Some in E.
Qed.

End DraftFacts.

(** ** Writing to a draft and finalising it *)

Section FinalizeFacts.
Implicit Types (h : heap) (l : loc) (n : node) (x : cursor).

Lemma draft_of_preserves h h' x l fs0 fs ps :
  preserves h h' -> draft_of h x l fs0 fs ps -> draft_of h' x l fs0 fs ps.
Proof.
  intros Hp (n & -> & Hb & Hl & Hlat & Hfs). exists n. repeat split; try done.
  - by eapply preserves_lookup.
  - unfold latest in *. destruct (copy_ n); [done|]. by eapply preserves_lookup.
Qed.

(** A write to the draft of a plain object shows in the draft, leaves the
    heap alone, and marks the draft unless it writes back the value the
    property has. *)
Lemma draft_of_set h x l fs0 fs ps k v :
  draft_of h x l fs0 fs ps ->
  exists x',
    cursor_set h x k v = Ok (x', h) /\
    draft_of h x' l fs0 (field_set k v fs) ps /\
    (focus_modified x = true -> focus_modified x' = true) /\
    (default VUndefined (field_get k fs) <> v -> focus_modified x' = true) /\
    (focus_modified x = false -> field_get k fs = Some v -> x' = x).
Proof.
  intros (n & -> & Hb & Hl & Hlat & Hfs).
  unfold cursor_set; simpl. rewrite Hlat, Hb, Hl. simpl.
  destruct (bool_decide (copy_ n = None) && same_value v (default VUndefined (field_get k fs))
            && (negb (same_value v VUndefined) || bool_decide (is_Some (field_get k fs0))))
    eqn:Hnoop.
  - apply andb_prop in Hnoop as [Hnoop Hown].
    apply andb_prop in Hnoop as [Hcopy Hsame].
    apply bool_decide_eq_true in Hcopy. apply bool_decide_eq_true in Hsame.
    specialize (Hfs Hcopy). subst fs0.
    assert (field_set k v fs = fs) as Hid.
    { destruct (field_get k fs) as [w|] eqn:Ew; simpl in Hsame.
      - subst w. by apply field_set_same.
      - subst v. exfalso. revert Hown. unfold same_value.
        rewrite bool_decide_true by done. simpl.
        rewrite ?bool_decide_false by (by intros [? ?]). done. }
    eexists; split; [done|]. rewrite Hid. split; [|split; [|split]].
    + exists n. by repeat split.
    + done.
    + intros Hne. by rewrite Hsame in Hne.
    + done.
  - eexists; split; [done|]. split; [|split; [|split]].
    + eexists; repeat split; simpl; try done.
    + done.
    + intros _. unfold focus_modified, node_modified; simpl.
      rewrite ?bool_decide_true by eauto. done.
    + unfold focus_modified, node_modified; simpl. intros Hunmod Hget.
      apply bool_decide_eq_false in Hunmod.
      assert (copy_ n = None) as Hcopy.
      { destruct (copy_ n); [|done]. exfalso. apply Hunmod. eauto. }
      specialize (Hfs Hcopy). subst fs0. exfalso. revert Hnoop.
      rewrite Hget. simpl. unfold same_value.
      rewrite !bool_decide_true by eauto. simpl.
      by rewrite orb_true_r.
Qed.

Lemma spine_preserves h1 h2 b h segs l l' c' :
  preserves h1 h2 -> spine h1 b h segs l l' c' -> spine h2 b h segs l l' c'.
Proof.
  intros Hp. revert l l'; induction segs as [|k rest IH]; intros l l'; simpl.
  - intros [? ?]. split; [done|]. by eapply preserves_lookup.
  - intros (Hb & c & child & child' & c2 & ? & ? & ? & Hl' & Hs).
    split; [done|]. exists c, child, child', c2. repeat split; try done.
    + by eapply preserves_lookup.
    + by apply IH.
Qed.

(** Once a child has been copied, so is every object above it. *)
Lemma finalize_parents_changed b h ps : forall l l' tail c' h1 root segs,
  chain h l ps root segs ->
  preserves h h1 ->
  b <= length h1 ->
  spine h1 b h tail l l' c' ->
  exists h2 root',
    finalize_parents h1 (VRef l') true ps = Ok (h2, VRef root') /\
    preserves h1 h2 /\
    spine h2 b h (segs ++ tail) root root' c'.
Proof.
  induction ps as [|[n k] rest IH]; intros l l' tail c' h1 root segs Hch Hp Hb Hs; simpl in *.
  - destruct Hch as [-> ->]. exists h1, l'. by repeat split.
  - destruct Hch as (Hn & c & segs' & Hc & Hk & -> & Hch).
    unfold latest. rewrite Hn, (preserves_lookup _ _ _ _ Hp Hc).
    destruct (cell_set_ref_ok c k l (VRef l') Hk) as (c2 & Hset & Hget).
    rewrite Hset. simpl.
    destruct (IH (base_ n) (length h1) (k :: tail) c' (h1 ++ [ c2 ]) root segs')
      as (h2 & root' & Hfin & Hp2 & Hs2).
    + done.
    + eapply preserves_trans; [done | apply preserves_alloc].
    + rewrite length_app. simpl. lia.
    + simpl. split; [done|].
      exists c, l, l', c2. repeat split; try done.
      * apply lookup_alloc.
      * eapply spine_preserves; [apply preserves_alloc | done].
    + exists h2, root'. repeat split; try done.
      * eapply preserves_trans; [apply preserves_alloc | done].
      * by rewrite <- app_assoc.
Qed.

(** With nothing modified, finalising hands back the base state. *)
Lemma finalize_parents_unchanged h ps : forall l h1 root segs,
  chain h l ps root segs ->
  finalize_parents h1 (VRef l) false ps = Ok (h1, VRef root).
Proof.
  induction ps as [|[n k] rest IH]; intros l h1 root segs Hch; simpl in *.
  - by destruct Hch as [-> _].
  - destruct Hch as (Hn & c & segs' & Hc & Hk & -> & Hch).
    unfold finalize_node. rewrite Hn. by eapply IH.
Qed.

Lemma finalize_draft b h h1 x l fs0 fs ps root segs :
  draft_of h1 x l fs0 fs ps ->
  chain h l ps root segs ->
  preserves h h1 ->
  b <= length h1 ->
  exists h' state',
    finalize h1 (VRef root) x = Ok (h', state') /\
    preserves h1 h' /\
    if focus_modified x
    then exists root', state' = VRef root' /\
                       spine h' b h segs root root' (Obj fs)
    else h' = h1 /\ state' = VRef root /\ fs = fs0.
Proof.
  intros (n & -> & Hb & Hl & Hlat & Hfs) Hch Hp Hle.
  unfold finalize, focus_modified, node_modified, finalize_node; simpl.
  unfold latest in Hlat. destruct (copy_ n) as [c|] eqn:Hc.
  - injection Hlat as ->. rewrite bool_decide_true by eauto.
    destruct (finalize_parents_changed b h ps l (length h1) [] (Obj fs)
                (h1 ++ [ Obj fs ]) root segs) as (h2 & root' & Hfin & Hp2 & Hs).
    + by subst l.
    + eapply preserves_trans; [done | apply preserves_alloc].
    + rewrite length_app. simpl. lia.
    + simpl. split; [done | apply lookup_alloc].
    + exists h2, (VRef root'). repeat split; try done.
      * eapply preserves_trans; [apply preserves_alloc | done].
      * rewrite app_nil_r in Hs. eauto.
  - rewrite bool_decide_false by (by intros [? ?]).
    exists h1, (VRef root). subst l. repeat split; try done.
    + by eapply finalize_parents_unchanged.
    + by apply Hfs.
Qed.

(** What a spine says about the new state: the path leads to the new
    container, through objects that are all new. *)
Lemma spine_container h' b h segs : forall l l' c',
  spine h' b h segs l l' c' ->
  exists lc vs,
    walk (get_prop h') segs (VRef l') = Ok (VRef lc) /\
    h' !! lc = Some c' /\ b <= lc /\
    trace h' segs (VRef l') = Ok vs /\ Forall (fresh_ref b) vs.
Proof.
  induction segs as [|k rest IH]; intros l l' c'; simpl.
  - intros [Hb Hl]. exists l', [ VRef l' ]. repeat split; try done.
    constructor; [|done]. by exists l'.
  - intros (Hb & c & child & child' & c2 & Hc & Hk & Hset & Hl' & Hs).
    destruct (cell_set_ref_ok c k child (VRef child') Hk) as (c2' & Hset' & Hget).
    rewrite Hset in Hset'. injection Hset' as <-.
    rewrite Hl'. simpl. rewrite Hget.
    destruct (IH _ _ _ Hs) as (lc & vs & Hw & Hlc & Hblc & Htr & Hall).
    exists lc, (VRef l' :: vs). rewrite Hw, Htr. repeat split; try done.
    constructor; [by exists l' | done].
Qed.

End FinalizeFacts.

(** ** The four reducers on a state whose container resolves *)

Section ReducerFacts.
Implicit Types (h : heap) (l : loc) (x : cursor).

Lemma container_at_preserves path h h' state l fs :
  preserves h h' -> container_at path h state l fs -> container_at path h' state l fs.
Proof.
  intros Hp [Hw Hl]. split; [|by eapply preserves_lookup].
  rewrite getNestedState_walk in *. by eapply walk_preserves.
Qed.

Lemma spine_container_at path h' b h root root' fs :
  spine h' b h (Js.split Js.dot path) root root' (Obj fs) ->
  exists l', container_at path h' (VRef root') l' fs /\ b <= l'.
Proof.
  intros Hs. destruct (spine_container _ _ _ _ _ _ _ Hs) as (lc & vs & Hw & Hl & Hb & _).
  exists lc. split; [split|]; try done. by rewrite getNestedState_walk.
Qed.

(** The end of a [produce] call whose recipe stopped on the container's
    draft and returned nothing (or the root draft). *)
Lemma produce_finish path h hc state l fs0 (r : recipe) h1 x fs ps root returned :
  container_at path hc state l fs0 ->
  state = VRef root ->
  r (length h) h {| at_ := enter (length h) state; parents := [] |}
    = Ok (h1, x, returned) ->
  returned = VUndefined \/ returned = state ->
  preserves hc h1 ->
  length h <= length h1 ->
  draft_of h1 x l fs0 fs ps ->
  chain hc l ps root (Js.split Js.dot path) ->
  exists h' state',
    produce h state r = Ok (h', state') /\
    preserves h1 h' /\
    patched path (length h) hc state h' state' fs /\
    (focus_modified x = true ->
       exists root', state' = VRef root' /\
         spine h' (length h) hc (Js.split Js.dot path) root root' (Obj fs)) /\
    (focus_modified x = false -> h' = h1 /\ state' = state).
Proof.
  intros Hc -> Hr Hret Hp Hle Hd Hch.
  destruct (finalize_draft (length h) hc h1 x l fs0 fs ps root _ Hd Hch Hp Hle)
    as (h' & s' & Hfin & Hp' & Hout).
  exists h', s'. unfold produce. rewrite Hr. simpl.
  assert (same_value returned VUndefined || same_value returned (VRef root) = true) as ->.
  { unfold same_value. destruct Hret as [-> | ->].
    - by rewrite bool_decide_true.
    - rewrite (bool_decide_true (VRef root = VRef root)) by done. apply orb_true_r. }
  split; [done|]. split; [done|].
  destruct (focus_modified x).
  - destruct Hout as (root' & -> & Hs). split; [|split; [eauto | done]].
    right. eauto.
  - destruct Hout as (-> & -> & ->). split; [|split; [done | done]].
    left. split; [done|]. exists l. by apply (container_at_preserves _ hc).
Qed.

(** Running a recipe one statement at a time. *)
Ltac recipe_step := unfold mbind, result_bind, alloc; cbv beta iota zeta.

Ltac recipe_finish_in hc path h root l fs0 h1 x fs ps returned :=
  lazymatch goal with
  | |- context [ produce _ _ ?r ] =>
      let H := fresh "Hfinish" in
      pose proof (produce_finish path h hc (VRef root) l fs0 r h1 x fs ps root returned) as H
  end.

Ltac recipe_finish path h root l fs0 h1 x fs ps returned :=
  recipe_finish_in h path h root l fs0 h1 x fs ps returned.

Lemma onLoad_patches path h state action l fs0 :
  container_at path h state l fs0 ->
  let fs := field_set "errors" (VRef (length h))
              (field_set "loading" (VBool true) fs0) in
  exists h' state',
    onLoad_reducer path h state action = Ok (h', state') /\
    preserves h h' /\
    h' !! length h = Some empty_array /\
    patched path (length h) h state h' state' fs /\
    (default VUndefined (field_get "errors" fs0) <> VRef (length h) ->
     exists root root', state = VRef root /\ state' = VRef root' /\
       spine h' (length h) h (Js.split Js.dot path) root root' (Obj fs)).
Proof.
  intros Hc fs.
  destruct (resolve_draft (length h) _ _ _ _ _ Hc (container_root _ _ _ _ _ Hc))
    as (root & ps & -> & Hres & Hch & Hd).
  assert (root < length h) as Hroot by (by eapply container_root).
  destruct (draft_of_set _ _ _ _ _ _ "loading" (VBool true) Hd)
    as (x1 & Hset1 & Hd1 & _ & _ & _).
  apply (draft_of_preserves _ (h ++ [ empty_array ])) in Hd1; [|apply preserves_alloc].
  destruct (draft_of_set _ _ _ _ _ _ "errors" (VRef (length h)) Hd1)
    as (x2 & Hset2 & Hd2 & _ & Hmod & _).
  unfold onLoad_reducer.
  recipe_finish path h root l fs0 (h ++ [ empty_array ]) x2 fs ps VUndefined.
  destruct Hfinish as (h' & s' & Hprod & Hp & Hpatched & Hm & _); try done.
  - recipe_step. rewrite Hres. recipe_step. rewrite Hset1. recipe_step.
    by rewrite Hset2.
  - by left.
  - apply preserves_alloc.
  - rewrite length_app; lia.
  - exists h', s'. split; [exact Hprod|]. repeat split.
    + eapply preserves_trans; [apply preserves_alloc | done].
    + eapply preserves_lookup; [done | apply lookup_alloc].
    + done.
    + intros Hne. destruct Hm as (root' & -> & Hs).
      * apply Hmod. by rewrite field_get_set_ne.
      * eauto.
Qed.

Lemma onLoadSuccess_patches path prop h state action d l fs0 :
  container_at path h state l fs0 ->
  get_prop h action "data" = Ok d ->
  let fs1 := field_set prop d fs0 in
  let fs := field_set "loading" (VBool false)
              (field_set "errors" (VRef (length h)) fs1) in
  exists h' state',
    onLoadSuccess_reducer path prop None h state action = Ok (h', state') /\
    preserves h h' /\
    h' !! length h = Some empty_array /\
    patched path (length h) h state h' state' fs /\
    (default VUndefined (field_get "errors" fs1) <> VRef (length h) ->
     exists root root', state = VRef root /\ state' = VRef root' /\
       spine h' (length h) h (Js.split Js.dot path) root root' (Obj fs)).
Proof.
  intros Hc Hdata fs1 fs.
  destruct (resolve_draft (length h) _ _ _ _ _ Hc (container_root _ _ _ _ _ Hc))
    as (root & ps & -> & Hres & Hch & Hd).
  assert (root < length h) as Hroot by (by eapply container_root).
  destruct (draft_of_set _ _ _ _ _ _ prop d Hd) as (x1 & Hset1 & Hd1 & _ & _ & _).
  apply (draft_of_preserves _ (h ++ [ empty_array ])) in Hd1; [|apply preserves_alloc].
  destruct (draft_of_set _ _ _ _ _ _ "errors" (VRef (length h)) Hd1)
    as (x2 & Hset2 & Hd2 & _ & Hmod & _).
  destruct (draft_of_set _ _ _ _ _ _ "loading" (VBool false) Hd2)
    as (x3 & Hset3 & Hd3 & Hkeep & _ & _).
  unfold onLoadSuccess_reducer.
  recipe_finish path h root l fs0 (h ++ [ empty_array ]) x3 fs ps (VRef root).
  destruct Hfinish as (h' & s' & Hprod & Hp & Hpatched & Hm & _); try done.
  - recipe_step. rewrite Hres. recipe_step. rewrite Hdata. recipe_step.
    rewrite Hset1. recipe_step. rewrite Hset2. recipe_step. rewrite Hset3.
    simpl. by rewrite bool_decide_true.
  - by right.
  - apply preserves_alloc.
  - rewrite length_app; lia.
  - exists h', s'. split; [exact Hprod|]. repeat split.
    + eapply preserves_trans; [apply preserves_alloc | done].
    + eapply preserves_lookup; [done | apply lookup_alloc].
    + done.
    + intros Hne. destruct Hm as (root' & -> & Hs); [by auto | eauto].
Qed.

Lemma onLoadFailure_patches path h state action e l fs0 :
  container_at path h state l fs0 ->
  get_prop h action "errors" = Ok e ->
  let fs := field_set "errors" e (field_set "loading" (VBool false) fs0) in
  exists h' state',
    onLoadFailure_reducer path h state action = Ok (h', state') /\
    preserves h h' /\
    patched path (length h) h state h' state' fs /\
    (default VUndefined (field_get "loading" fs0) <> VBool false \/
     default VUndefined (field_get "errors" fs0) <> e ->
     exists root root', state = VRef root /\ state' = VRef root' /\
       spine h' (length h) h (Js.split Js.dot path) root root' (Obj fs)) /\
    (field_get "loading" fs0 = Some (VBool false) ->
     field_get "errors" fs0 = Some e ->
     h' = h /\ state' = state).
Proof.
  intros Hc Herr fs.
  destruct (resolve_draft (length h) _ _ _ _ _ Hc (container_root _ _ _ _ _ Hc))
    as (root & ps & -> & Hres & Hch & Hd).
  assert (root < length h) as Hroot by (by eapply container_root).
  destruct (draft_of_set _ _ _ _ _ _ "loading" (VBool false) Hd)
    as (x1 & Hset1 & Hd1 & _ & Hmod1 & Hsame1).
  destruct (draft_of_set _ _ _ _ _ _ "errors" e Hd1)
    as (x2 & Hset2 & Hd2 & Hkeep & Hmod2 & Hsame2).
  unfold onLoadFailure_reducer.
  recipe_finish path h root l fs0 h x2 fs ps VUndefined.
  destruct Hfinish as (h' & s' & Hprod & Hp & Hpatched & Hm & Hu); try done.
  - recipe_step. rewrite Hres. recipe_step. rewrite Hset1. recipe_step.
    rewrite Herr. recipe_step. by rewrite Hset2.
  - by left.
  - exists h', s'. split; [exact Hprod|]. split; [done|]. split; [done|]. split.
    + intros Hne. destruct Hm as (root' & -> & Hs); [|by eauto].
      destruct Hne as [Hne|Hne]; [by auto|].
      apply Hmod2. by rewrite field_get_set_ne.
    + intros Hl He. apply Hu.
      rewrite Hsame2; rewrite ?Hsame1; try done.
      by rewrite field_get_set_ne.
Qed.

Lemma onReset_patches path prop initial h state action l fs0 :
  container_at path h state l fs0 ->
  let fs1 := field_set prop initial fs0 in
  let fs := field_set "loading" (VBool false)
              (field_set "errors" (VRef (length h)) fs1) in
  exists h' state',
    onReset_reducer path prop initial h state action = Ok (h', state') /\
    preserves h h' /\
    h' !! length h = Some empty_array /\
    patched path (length h) h state h' state' fs /\
    (default VUndefined (field_get "errors" fs1) <> VRef (length h) ->
     exists root root', state = VRef root /\ state' = VRef root' /\
       spine h' (length h) h (Js.split Js.dot path) root root' (Obj fs)).
Proof.
  intros Hc fs1 fs.
  destruct (resolve_draft (length h) _ _ _ _ _ Hc (container_root _ _ _ _ _ Hc))
    as (root & ps & -> & Hres & Hch & Hd).
  assert (root < length h) as Hroot by (by eapply container_root).
  destruct (draft_of_set _ _ _ _ _ _ prop initial Hd) as (x1 & Hset1 & Hd1 & _ & _ & _).
  apply (draft_of_preserves _ (h ++ [ empty_array ])) in Hd1; [|apply preserves_alloc].
  destruct (draft_of_set _ _ _ _ _ _ "errors" (VRef (length h)) Hd1)
    as (x2 & Hset2 & Hd2 & _ & Hmod & _).
  destruct (draft_of_set _ _ _ _ _ _ "loading" (VBool false) Hd2)
    as (x3 & Hset3 & Hd3 & Hkeep & _ & _).
  unfold onReset_reducer.
  recipe_finish path h root l fs0 (h ++ [ empty_array ]) x3 fs ps VUndefined.
  destruct Hfinish as (h' & s' & Hprod & Hp & Hpatched & Hm & _); try done.
  - recipe_step. rewrite Hres. recipe_step. rewrite Hset1. recipe_step.
    rewrite Hset2. recipe_step. by rewrite Hset3.
  - by left.
  - apply preserves_alloc.
  - rewrite length_app; lia.
  - exists h', s'. split; [exact Hprod|]. repeat split.
    + eapply preserves_trans; [apply preserves_alloc | done].
    + eapply preserves_lookup; [done | apply lookup_alloc].
    + done.
    + intros Hne. destruct Hm as (root' & -> & Hs); [by auto | eauto].
Qed.

(** The success reducer when the reducer function hands the state back:
    the bookkeeping is written through the draft, the data is not. *)
Lemma onLoadSuccess_passes path prop f h state action d h1 l fs0 :
  container_at path h state l fs0 ->
  get_prop h action "data" = Ok d ->
  f h state d = Ok (h1, state) ->
  preserves h h1 ->
  let fs := field_set "loading" (VBool false)
              (field_set "errors" (VRef (length h1)) fs0) in
  exists h' state',
    onLoadSuccess_reducer path prop (Some f) h state action = Ok (h', state') /\
    preserves h1 h' /\
    h' !! length h1 = Some empty_array /\
    patched path (length h) h1 state h' state' fs.
Proof.
  intros Hc Hdata Hf Hp fs.
  pose proof (container_root _ _ _ _ _ Hc) as Hroot.
  apply (container_at_preserves _ _ h1) in Hc; [|done].
  destruct (resolve_draft (length h) _ _ _ _ _ Hc Hroot)
    as (root & ps & -> & Hres & Hch & Hd).
  specialize (Hroot root eq_refl).
  apply (draft_of_preserves _ (h1 ++ [ empty_array ])) in Hd; [|apply preserves_alloc].
  destruct (draft_of_set _ _ _ _ _ _ "errors" (VRef (length h1)) Hd)
    as (x2 & Hset2 & Hd2 & _ & _ & _).
  destruct (draft_of_set _ _ _ _ _ _ "loading" (VBool false) Hd2)
    as (x3 & Hset3 & Hd3 & _ & _ & _).
  unfold onLoadSuccess_reducer.
  recipe_finish_in h1 path h root l fs0 (h1 ++ [ empty_array ]) x3 fs ps (VRef root).
  destruct Hfinish as (h' & s' & Hprod & Hp' & Hpatched & _ & _); try done.
  - recipe_step. rewrite Hdata. recipe_step. rewrite Hf. recipe_step.
    rewrite Hres. recipe_step. rewrite Hset2. recipe_step. rewrite Hset3.
    simpl. by rewrite bool_decide_true.
  - by right.
  - apply preserves_alloc.
  - rewrite length_app. apply preserves_length in Hp. lia.
  - exists h', s'. split; [exact Hprod|]. repeat split; try done.
    + eapply preserves_trans; [apply preserves_alloc | done].
    + eapply preserves_lookup; [done | apply lookup_alloc].
Qed.

End ReducerFacts.

(** ** A reducer function that hands back a state of its own *)

Section ReplaceFacts.
Implicit Types (h : heap) (l : loc) (x : cursor).

Lemma field_get_in k fs v : field_get k fs = Some v -> v ∈ (snd <$> fs : list val).
Proof.
  induction fs as [|[k' v'] fs IH]; simpl; [done|].
  destruct (String.eqb k' k).
  - intros [= ->]. apply elem_of_cons; by left.
  - intros H. apply elem_of_cons; right; auto.
Qed.

Lemma cell_get_refs c k l : cell_get c k = VRef l -> VRef l ∈ cell_refs c.
Proof.
  destruct c as [fs|es ps]; simpl.
  - destruct (field_get k fs) as [v|] eqn:E; simpl; [|done].
    intros ->. by eapply field_get_in.
  - destruct (index_key k) as [i|].
    + destruct (es !! i) as [v|] eqn:E; simpl; [|done]. intros ->.
      apply elem_of_app; left. by eapply list_elem_of_lookup_2.
    + destruct (String.eqb k "length"); [done|].
      destruct (field_get k ps) as [v|] eqn:E; simpl; [|done].
      intros ->. apply elem_of_app; right. by eapply field_get_in.
Qed.

Lemma closed_get_prop h v k l :
  closed h -> get_prop h v k = Ok (VRef l) -> l < length h.
Proof.
  intros Hcl Hg. apply get_prop_ref in Hg as (r & c & -> & Hr & Hc).
  eapply Hcl; [exact Hr|]. by eapply cell_get_refs.
Qed.

(** From an object of the old heap only objects of the old heap are
    reached, also after the heap has grown. *)
Lemma walk_old h h1 segs : forall l0 l,
  closed h -> preserves h h1 -> l0 < length h ->
  walk (get_prop h1) segs (VRef l0) = Ok (VRef l) -> l < length h.
Proof.
  induction segs as [|p rest IH]; intros l0 l Hcl Hp Hl0; simpl.
  - by intros [= <-].
  - destruct (lookup_lt_is_Some_2 h l0 Hl0) as [c Hc].
    rewrite (preserves_lookup _ _ _ _ Hp Hc). simpl. intros Hw.
    destruct (walk_ref _ _ _ _ Hw) as [l1 Hl1]. rewrite Hl1 in Hw.
    eapply (IH l1); try done.
    eapply Hcl; [exact Hc|]. by eapply cell_get_refs.
Qed.

Lemma trace_head h segs v vs : trace h segs v = Ok vs -> exists vs', vs = v :: vs'.
Proof.
  destruct segs as [|p rest]; simpl.
  - intros [= <-]. eauto.
  - destruct (get_prop h v p); simpl; [|done].
    destruct (trace h rest a); simpl; [|done]. intros [= <-]. eauto.
Qed.

(** A path that ends on a new object has only passed through new ones. *)
Lemma trace_fresh h h1 segs : forall v l,
  closed h -> preserves h h1 ->
  walk (get_prop h1) segs v = Ok (VRef l) -> length h <= l ->
  exists vs, trace h1 segs v = Ok vs /\ Forall (fresh_ref (length h)) vs.
Proof.
  induction segs as [|p rest IH]; intros v l Hcl Hp; simpl.
  - intros [= ->] Hl. exists [ VRef l ]. split; [done|].
    constructor; [by exists l | done].
  - destruct (get_prop h1 v p) as [v1|] eqn:Hg; simpl; [|done]. intros Hw Hl.
    destruct (IH v1 l Hcl Hp Hw Hl) as (vs & Htr & Hall). rewrite Htr. simpl.
    exists (v :: vs). split; [done|]. constructor; [|done].
    destruct (walk_ref _ _ _ _ Hw) as [l1 ->].
    apply get_prop_ref in Hg as (l0 & c & -> & Hl0 & Hc). exists l0. split; [done|].
    destruct (decide (l0 < length h)) as [Hold|]; [|lia].
    assert (l < length h); [|lia].
    eapply (walk_old h h1 (p :: rest) l0 l); try done.
    simpl. rewrite Hl0. simpl. by rewrite Hc.
Qed.

(** New objects are plain objects to the recipe, not drafts. *)
Lemma cursor_get_plain b h v k l ps :
  get_prop h v k = Ok (VRef l) -> b <= l ->
  cursor_get b h {| at_ := Plain v; parents := ps |} k
  = Ok {| at_ := Plain (VRef l); parents := ps |}.
Proof.
  intros Hg Hl. unfold cursor_get; simpl. rewrite Hg. simpl.
  by rewrite bool_decide_false by lia.
Qed.

Lemma walk_plain b h segs : forall v vs w,
  trace h segs v = Ok vs -> Forall (fresh_ref b) vs ->
  walk (get_prop h) segs v = Ok w ->
  walk (cursor_get b h) segs {| at_ := Plain v; parents := [] |}
  = Ok {| at_ := Plain w; parents := [] |}.
Proof.
  induction segs as [|p rest IH]; intros v vs w; simpl.
  - by intros _ _ [= ->].
  - destruct (get_prop h v p) as [v1|] eqn:Hg; simpl; [|done].
    destruct (trace h rest v1) as [vs1|] eqn:Htr; simpl; [|done].
    intros [= <-] Hall Hw. apply Forall_cons in Hall as [_ Hall].
    destruct (trace_head _ _ _ _ Htr) as [vs' ->].
    pose proof Hall as Hall'. apply Forall_cons in Hall' as [(l1 & -> & Hl1) _].
    rewrite (cursor_get_plain _ _ _ _ _ _ Hg Hl1). simpl. by eapply IH.
Qed.

Lemma cursor_set_plain h l fs k v ps :
  h !! l = Some (Obj fs) ->
  cursor_set h {| at_ := Plain (VRef l); parents := ps |} k v
  = Ok ({| at_ := Plain (VRef l); parents := ps |}, <[l := Obj (field_set k v fs)]> h).
Proof. intros Hl. unfold cursor_set; simpl. by rewrite Hl. Qed.

(** The success reducer when the reducer function has built and returned a
    state of its own: the returned container is overwritten in place and
    the returned root is the new state. *)
Lemma onLoadSuccess_replaces path prop f h state action d h1 next l fs :
  get_prop h action "data" = Ok d ->
  f h state d = Ok (h1, next) ->
  next <> state ->
  closed h -> preserves h h1 ->
  container_at path h1 next l fs -> length h <= l ->
  onLoadSuccess_reducer path prop (Some f) h state action
  = Ok (<[l := Obj (field_set "loading" (VBool false)
                      (field_set "errors" (VRef (length h1)) fs))]>
          (h1 ++ [ empty_array ]), next).
Proof.
  intros Hdata Hf Hne Hcl Hp [Hw Hl] Hfresh.
  rewrite getNestedState_walk in Hw.
  destruct (trace_fresh h h1 _ _ _ Hcl Hp Hw Hfresh) as (vs & Htr & Hall).
  pose proof (walk_plain (length h) h1 _ _ _ _ Htr Hall Hw) as Hplain.
  destruct (trace_head _ _ _ _ Htr) as [vs' ->].
  pose proof Hall as Hall'. apply Forall_cons in Hall' as [(r & -> & Hr) _].
  assert (l < length h1) as Hlt by (by eapply lookup_lt_Some).
  unfold onLoadSuccess_reducer, produce.
  unfold mbind, result_bind, alloc; cbv beta iota zeta.
  rewrite Hdata, Hf. cbv beta iota zeta.
  rewrite getNestedState_walk.
  replace (enter (length h) (VRef r)) with (Plain (VRef r))
    by (simpl; by rewrite bool_decide_false by lia).
  rewrite Hplain. cbv beta iota zeta.
  rewrite (cursor_set_plain _ l fs) by (by rewrite lookup_app_l).
  rewrite (cursor_set_plain _ l (field_set "errors" (VRef (length h1)) fs))
    by (apply list_lookup_insert_eq; rewrite length_app; lia).
  rewrite list_insert_insert_eq. simpl.
  unfold same_value. by rewrite bool_decide_false by done.
Qed.

End ReplaceFacts.

(** ** No reducer mutates an object of the incoming heap *)

(** One statement of a recipe, run backwards from its result. *)
Tactic Notation "unbind" hyp(H) "as" simple_intropattern(pat) :=
  unfold mbind, result_bind in H;
  lazymatch type of H with
  | match ?r with Ok _ => _ | Throw _ => _ end = Ok _ =>
      let E := fresh "Hstep" in
      destruct r as [pat|] eqn:E; [|discriminate H]
  end.

Section NoMutation.
Implicit Types (h : heap) (l : loc) (x : cursor).

Lemma enter_safe b v ps :
  plain_is_new b {| at_ := enter b v; parents := ps |} /\
  unmodified {| at_ := enter b v; parents := ps |}.
Proof.
  unfold plain_is_new, unmodified; simpl.
  destruct v as [| | | | |l]; simpl; try (split; intros; congruence).
  destruct (decide (l < b)).
  - rewrite bool_decide_true by done. split; intros ? [= <-]; done.
  - rewrite bool_decide_false by done. split; [intros ? [= <-]; lia | done].
Qed.

Lemma cursor_get_safe b h x k x' :
  unmodified x -> cursor_get b h x k = Ok x' ->
  plain_is_new b x' /\ unmodified x'.
Proof.
  intros Hun. unfold cursor_get.
  destruct (at_ x) as [v|n] eqn:Hat.
  - destruct (get_prop h v k) as [v'|]; simpl; [|done].
    intros [= <-]. apply enter_safe.
  - specialize (Hun n Hat). unfold latest. rewrite Hun.
    destruct (h !! base_ n) as [c|]; [|done]. intros [= <-].
    unfold plain_is_new, unmodified; simpl.
    destruct (cell_get c k); try (split; intros; congruence).
    unfold same_value. rewrite bool_decide_true by done.
    split; intros ? [= <-]; done.
Qed.

Lemma walk_safe b h segs : forall x x',
  plain_is_new b x -> unmodified x ->
  walk (cursor_get b h) segs x = Ok x' ->
  plain_is_new b x' /\ unmodified x'.
Proof.
  induction segs as [|p rest IH]; intros x x' Hnew Hun; simpl.
  - by intros [= <-].
  - destruct (cursor_get b h x p) as [x1|] eqn:Hg; simpl; [|done].
    destruct (cursor_get_safe _ _ _ _ _ Hun Hg). by apply IH.
Qed.

Lemma getNestedState_safe b h path v x' :
  getNestedState (cursor_get b h) path {| at_ := enter b v; parents := [] |} = Ok x' ->
  plain_is_new b x'.
Proof.
  rewrite getNestedState_walk. intros Hw.
  destruct (enter_safe b v []) as [Hnew Hun].
  by destruct (walk_safe _ _ _ _ _ Hnew Hun Hw).
Qed.

(** A write goes to a draft's copy or to an object made during the call. *)
Lemma cursor_set_preserves h0 h x k v x' h' :
  plain_is_new (length h0) x -> preserves h0 h ->
  cursor_set h x k v = Ok (x', h') ->
  preserves h0 h' /\ plain_is_new (length h0) x'.
Proof.
  intros Hnew Hp. unfold cursor_set.
  destruct (at_ x) as [w|n] eqn:Hat.
  - destruct w as [| | | | |l]; try done.
    destruct (h !! l) as [c|] eqn:Hl; [|done].
    destruct (cell_set c k v) as [c'|]; simpl; [|done].
    intros [= <- <-]. split; [|done].
    specialize (Hnew l Hat). intros l0 c0 Hl0.
    rewrite list_lookup_insert_ne; [by apply Hp|].
    apply lookup_lt_Some in Hl0. lia.
  - destruct (latest h n) as [c|]; [|done].
    destruct (h !! base_ n) as [c0|]; [|done].
    destruct (negb (draft_accepts c k)); [done|].
    destruct (_ && _).
    + by intros [= <- <-].
    + destruct (cell_set c k v) as [c'|]; simpl; [|done].
      intros [= <- <-]. split; [done|]. by intros l [=].
Qed.

Lemma finalize_parents_preserves ps : forall h v changed h' r,
  finalize_parents h v changed ps = Ok (h', r) -> preserves h h'.
Proof.
  induction ps as [|[n k] rest IH]; intros h v changed h' r; simpl.
  - by intros [= <- _].
  - destruct changed.
    + destruct (latest h n) as [c|]; [|done].
      destruct (cell_set c k v) as [c'|]; simpl; [|done].
      intros Hfin. apply IH in Hfin.
      eapply preserves_trans; [apply preserves_alloc | done].
    + unfold finalize_node. destruct (copy_ n) as [c|].
      * intros Hfin. apply IH in Hfin.
        eapply preserves_trans; [apply preserves_alloc | done].
      * apply IH.
Qed.

Lemma finalize_preserves h base x h' r :
  finalize h base x = Ok (h', r) -> preserves h h'.
Proof.
  unfold finalize, finalize_node. destruct (at_ x) as [v|n].
  - apply finalize_parents_preserves.
  - destruct (copy_ n) as [c|].
    + intros Hfin. apply finalize_parents_preserves in Hfin.
      eapply preserves_trans; [apply preserves_alloc | done].
    + apply finalize_parents_preserves.
Qed.

Lemma produce_preserves h state (r : recipe) h' state' :
  (forall h1 x1 returned,
     r (length h) h {| at_ := enter (length h) state; parents := [] |}
     = Ok (h1, x1, returned) -> preserves h h1) ->
  produce h state r = Ok (h', state') -> preserves h h'.
Proof.
  intros Hr. unfold produce.
  destruct (r _ _ _) as [[[h1 x1] returned]|] eqn:Hrun; simpl; [|done].
  specialize (Hr _ _ _ eq_refl).
  destruct (_ || _).
  - intros Hfin. apply finalize_preserves in Hfin. by eapply preserves_trans.
  - destruct (cursor_modified x1); [done|]. by intros [= <- _].
Qed.


Ltac written H Hnew Hp :=
  let Hnew' := fresh "Hnew" in
  let Hp' := fresh "Hp" in
  destruct (cursor_set_preserves _ _ _ _ _ _ _ Hnew Hp H) as [Hp' Hnew'].

Lemma onLoad_preserves path h state action h' state' :
  onLoad_reducer path h state action = Ok (h', state') -> preserves h h'.
Proof.
  apply produce_preserves. intros h1 x1 returned Hrun.
  unbind Hrun as ?. apply getNestedState_safe in Hstep.
  unbind Hrun as [x2 h2].
  written Hstep0 Hstep (preserves_refl h).
  unfold alloc in Hrun. unbind Hrun as [x3 h3].
  assert (preserves h (h2 ++ [ empty_array ])) as Hp1
    by (eapply preserves_trans; [done | apply preserves_alloc]).
  written Hstep1 Hnew Hp1. by injection Hrun as <- _ _.
Qed.

Lemma onLoadFailure_preserves path h state action h' state' :
  onLoadFailure_reducer path h state action = Ok (h', state') -> preserves h h'.
Proof.
  apply produce_preserves. intros h1 x1 returned Hrun.
  unbind Hrun as ?. apply getNestedState_safe in Hstep.
  unbind Hrun as [x2 h2].
  written Hstep0 Hstep (preserves_refl h).
  unbind Hrun as ?. unbind Hrun as [x3 h3].
  written Hstep2 Hnew Hp. by injection Hrun as <- _ _.
Qed.

Lemma onReset_preserves path prop initial h state action h' state' :
  onReset_reducer path prop initial h state action = Ok (h', state') ->
  preserves h h'.
Proof.
  apply produce_preserves. intros h1 x1 returned Hrun.
  unbind Hrun as ?. apply getNestedState_safe in Hstep.
  unbind Hrun as [x2 h2].
  written Hstep0 Hstep (preserves_refl h).
  unfold alloc in Hrun. unbind Hrun as [x3 h3].
  assert (preserves h (h2 ++ [ empty_array ])) as Hp1
    by (eapply preserves_trans; [done | apply preserves_alloc]).
  written Hstep1 Hnew Hp1.
  unbind Hrun as [x4 h4].
  written Hstep2 Hnew0 Hp0. by injection Hrun as <- _ _.
Qed.

Lemma onLoadSuccess_preserves path prop rf h state action h' state' :
  (forall f, rf = Some f -> allocates_only f) ->
  onLoadSuccess_reducer path prop rf h state action = Ok (h', state') ->
  preserves h h'.
Proof.
  intros Hrf. apply produce_preserves. intros h1 x1 returned Hrun.
  unbind Hrun as [h2 next].
  assert (preserves h h2 /\ exists v, next = {| at_ := enter (length h) v; parents := [] |})
    as [Hp2 [v ->]].
  { destruct rf as [f|].
    - unbind Hstep as ?. unbind Hstep as [h3 v].
      injection Hstep as <- <-. split; [|eauto].
      by eapply (Hrf f eq_refl).
    - injection Hstep as <- <-. split; [done | eauto]. }
  unbind Hrun as ?. apply getNestedState_safe in Hstep0.
  unbind Hrun as [x2 h3].
  assert (preserves h h3 /\ plain_is_new (length h) x2) as [Hp3 Hnew3].
  { destruct rf as [f|].
    - by injection Hstep1 as <- <-.
    - unbind Hstep1 as ?. by eapply cursor_set_preserves. }
  unfold alloc in Hrun. unbind Hrun as [x3 h4].
  assert (preserves h (h3 ++ [ empty_array ])) as Hp4
    by (eapply preserves_trans; [done | apply preserves_alloc]).
  written Hstep2 Hnew3 Hp4.
  unbind Hrun as [x4 h5].
  written Hstep3 Hnew Hp. by injection Hrun as <- _ _.
Qed.

End NoMutation.

(** * The claims *)

(** ** Path decomposition *)

(** For a path of two or more segments the decomposition is the last
    segment, the one before it, and the rest joined with dots; putting the
    parent path and the property back together gives the path. *)
Lemma getNestedStatePathName_nested (stateSelector : string)
  (init : list string) (parent prop : string) :
  Js.split Js.dot stateSelector = init ++ [ parent; prop ] ->
  getNestedStatePathName stateSelector
  = ({| propertyName := prop;
        parentName := parent;
        pathWithoutProperty := Js.join "." (init ++ [ parent ]) |}, []) /\
  stateSelector = Js.join "." (init ++ [ parent ]) +:+ "." +:+ prop.
Proof.
  intros Hsplit. unfold getNestedStatePathName. rewrite Hsplit.
  assert (Js.pop (init ++ [ parent; prop ]) = (Some prop, init ++ [ parent ])) as ->.
  { unfold Js.pop. replace (init ++ [ parent; prop ]) with ((init ++ [ parent ]) ++ [ prop ])
      by (by rewrite <- app_assoc).
    rewrite last_snoc, removelast_last. by destruct (init ++ [ parent ]). }
  assert (Js.pop (init ++ [ parent ]) = (Some parent, init)) as ->.
  { unfold Js.pop. rewrite last_snoc, removelast_last. by destruct init. }
  simpl. rewrite bool_decide_true by (rewrite length_app; simpl; lia).
  split; [done|].
  rewrite <- (join_split stateSelector) at 1. rewrite Hsplit.
  replace (init ++ [ parent; prop ]) with ((init ++ [ parent ]) ++ [ prop ])
    by (by rewrite <- app_assoc).
  apply join_snoc. by destruct init.
Qed.

(** On a path of one segment the parent path comes out empty, and the
    diagnostic is printed. *)
Lemma single_segment_decomposition (stateSelector : string) :
  length (Js.split Js.dot stateSelector) = 1 ->
  getNestedStatePathName stateSelector
  = ({| propertyName := stateSelector;
        parentName := stateSelector;
        pathWithoutProperty := EmptyString |},
     [ invalid_path_message stateSelector ]).
Proof.
  intros Hlen. unfold getNestedStatePathName.
  destruct (Js.split Js.dot stateSelector) as [|seg [|? ?]] eqn:Hsplit; try done.
  apply split_single in Hsplit as ->. reflexivity.
Qed.

(** C5: on a path of exactly one segment the decomposition gives that
    segment as the property (and as the parent name), but the empty string
    as the path without the property, not the segment the claim asks for:
    the fallback [?? stateSelector] after [join] never applies, because the
    join of an empty array is the empty string and not a nullish value. *)
Theorem getNestedStatePathName_single_segment (stateSelector : string) :
  length (Js.split Js.dot stateSelector) = 1 ->
  let names := fst (getNestedStatePathName stateSelector) in
  propertyName names = stateSelector /\
  parentName names = stateSelector /\
  pathWithoutProperty names = EmptyString.
Proof.
  intros Hlen. by rewrite (single_segment_decomposition _ Hlen).
Qed.

Lemma getNestedStatePathName_single_segment_witness :
  length (Js.split Js.dot "data") = 1 /\
  propertyName (fst (getNestedStatePathName "data")) = "data" /\
  pathWithoutProperty (fst (getNestedStatePathName "data")) = EmptyString /\
  pathWithoutProperty (fst (getNestedStatePathName "data")) <> "data".
Proof.
  split; [reflexivity|].
  destruct (getNestedStatePathName_single_segment "data" eq_refl) as (Hp & _ & Hw).
  split; [exact Hp|]. split; [exact Hw|]. rewrite Hw. discriminate.
Defined.

(** ** The reducers returned by [onActionGroup] *)

Lemma onActionGroup_built actionGroup stateSelector h0 state0 reducerFunction
  ons console :
  onActionGroup actionGroup stateSelector h0 state0 reducerFunction = (Ok ons, console) ->
  let names := fst (getNestedStatePathName stateSelector) in
  exists initialData,
    getNestedState (get_prop h0) stateSelector state0 = Ok initialData /\
    console = snd (getNestedStatePathName stateSelector) /\
    ons = [ on (load actionGroup) (onLoad_reducer (pathWithoutProperty names));
            on (loadSuccess actionGroup)
               (onLoadSuccess_reducer (pathWithoutProperty names)
                  (propertyName names) reducerFunction);
            on (loadFailure actionGroup)
               (onLoadFailure_reducer (pathWithoutProperty names));
            on (reset actionGroup)
               (onReset_reducer (pathWithoutProperty names)
                  (propertyName names) initialData) ].
Proof.
  unfold onActionGroup.
  destruct (getNestedStatePathName stateSelector) as [nm cs]. simpl.
  destruct (getNestedState (get_prop h0) stateSelector state0) as [v|]; simpl; [|done].
  intros [= <- <-]. by exists v.
Qed.

Lemma patched_container path b h state h' state' fs :
  patched path b h state h' state' fs ->
  exists l', container_at path h' state' l' fs.
Proof.
  intros [[-> Hc] | (root & root' & -> & -> & Hs)]; [done|].
  destruct (spine_container_at _ _ _ _ _ _ _ Hs) as (l' & Hc & _). eauto.
Qed.

(** ** End-to-end scenario *)

(** C4: from [{list: {data: [], loading: false, errors: []}}] with path
    "list.data" and no reducer function, the load reducer gives
    [loading: true], the success reducer with data [1,2,3] then gives
    [data: [1,2,3], loading: false], and the reset reducer then gives back
    [data: [], loading: false, errors: []]. *)
Theorem scenario_load_success_reset :
  exists onLoad onLoadSuccess onLoadFailure onReset st1 st2 st3,
    fst (onActionGroup todo_actions "list.data" (fst idle) (snd idle) None)
    = Ok [ onLoad; onLoadSuccess; onLoadFailure; onReset ] /\
    apply_to onLoad (JObj [ ("param", JNull) ]) idle = Ok st1 /\
    view st1 = Some (JObj [ ("list", JObj [ ("data", JArr []);
                                            ("loading", JBool true);
                                            ("errors", JArr []) ]) ]) /\
    apply_to onLoadSuccess (JObj [ ("data", JArr [ JNum 1; JNum 2; JNum 3 ]) ]) st1
    = Ok st2 /\
    view st2 = Some (JObj [ ("list", JObj [ ("data", JArr [ JNum 1; JNum 2; JNum 3 ]);
                                            ("loading", JBool false);
                                            ("errors", JArr []) ]) ]) /\
    apply_to onReset (JObj []) st2 = Ok st3 /\
    view st3 = Some (JObj [ ("list", JObj [ ("data", JArr []);
                                            ("loading", JBool false);
                                            ("errors", JArr []) ]) ]).
Proof.
  do 7 eexists. split; [reflexivity|].
  split; [vm_compute; reflexivity|]. split; [vm_compute; reflexivity|].
  split; [vm_compute; reflexivity|]. split; [vm_compute; reflexivity|].
  split; vm_compute; reflexivity.
Qed.

(** ** Payload independence *)

(** C10: the load and reset reducers give the same result whatever action
    they are called with; the [param] carried by a load action has no
    influence on the next state. *)
Theorem onLoad_onReset_ignore_action actionGroup stateSelector h0 state0
  reducerFunction ons console :
  onActionGroup actionGroup stateSelector h0 state0 reducerFunction = (Ok ons, console) ->
  exists onLoad onLoadSuccess onLoadFailure onReset,
    ons = [ onLoad; onLoadSuccess; onLoadFailure; onReset ] /\
    forall (h : heap) (state p1 p2 : val),
      snd onLoad h state p1 = snd onLoad h state p2 /\
      snd onReset h state p1 = snd onReset h state p2.
Proof.
  intros Hbuilt.
  apply onActionGroup_built in Hbuilt as (initialData & _ & _ & ->).
  do 4 eexists. split; [reflexivity|]. intros h state p1 p2. by split.
Qed.

Lemma onLoad_onReset_ignore_action_witness :
  exists onLoad onLoadSuccess onLoadFailure onReset,
    fst (onActionGroup todo_actions "list.data" (fst idle) (snd idle) None)
    = Ok [ onLoad; onLoadSuccess; onLoadFailure; onReset ] /\
    forall (h : heap) (state p1 p2 : val),
      snd onLoad h state p1 = snd onLoad h state p2 /\
      snd onReset h state p1 = snd onReset h state p2.
Proof.
  destruct (onLoad_onReset_ignore_action todo_actions "list.data" (fst idle) (snd idle)
              None _ _ eq_refl) as (a & b & c & d & Hons & Hsame).
  exists a, b, c, d. split; [|exact Hsame].
  injection Hons as <- <- <- <-. reflexivity.
Defined.

(** The other two reducers do read their action: the model is not blind to
    payloads. *)
Lemma onLoadFailure_reads_action :
  exists onLoad onLoadSuccess onLoadFailure onReset,
    fst (onActionGroup todo_actions "list.data" (fst idle) (snd idle) None)
    = Ok [ onLoad; onLoadSuccess; onLoadFailure; onReset ] /\
    (view <$> apply_to onLoadFailure (JObj [ ("errors", JStr "network") ]) idle)
    <> (view <$> apply_to onLoadFailure (JObj [ ("errors", JStr "timeout") ]) idle).
Proof. do 4 eexists. split; [reflexivity|]. vm_compute. discriminate. Qed.

(** ** Failure *)



(** ** Reset *)

Section DefaultFlow.
Variables (actionGroup : ActionGroup) (path prop : string).

Lemma get_prop_created h type k v :
  get_prop (h ++ [ Obj ([ (k, v) ] ++ [ ("type", VStr type) ]) ]) (VRef (length h)) k
  = Ok v.
Proof. simpl. rewrite lookup_alloc. simpl. by rewrite String.eqb_refl. Qed.

(** Without a reducer function, a transition from a state whose container
    resolves completes, in a state whose container resolves. *)
Lemma transition_resolves h state l fs e :
  container_at path h state l fs ->
  exists h' state' l' fs',
    transition actionGroup
      (on (load actionGroup) (onLoad_reducer path))
      (on (loadSuccess actionGroup) (onLoadSuccess_reducer path prop None))
      (on (loadFailure actionGroup) (onLoadFailure_reducer path)) (h, state) e
    = Ok (h', state') /\
    container_at path h' state' l' fs'.
Proof.
  intros Hc. destruct e as [param|data|errors]; simpl; unfold create_action, alloc.
  - eapply container_at_preserves in Hc; [|apply preserves_alloc].
    destruct (onLoad_patches _ _ _ (VRef (length h)) _ _ Hc)
      as (h' & s' & Hrun & _ & _ & Hpatched & _).
    destruct (patched_container _ _ _ _ _ _ _ Hpatched) as (l' & Hc').
    eexists h', s', l', _. split; [exact Hrun | exact Hc'].
  - eapply container_at_preserves in Hc; [|apply preserves_alloc].
    destruct (onLoadSuccess_patches _ prop _ _ (VRef (length h)) data _ _ Hc)
      as (h' & s' & Hrun & _ & _ & Hpatched & _); [apply get_prop_created|].
    destruct (patched_container _ _ _ _ _ _ _ Hpatched) as (l' & Hc').
    eexists h', s', l', _. split; [exact Hrun | exact Hc'].
  - eapply container_at_preserves in Hc; [|apply preserves_alloc].
    destruct (onLoadFailure_patches _ _ _ (VRef (length h)) errors _ _ Hc)
      as (h' & s' & Hrun & _ & Hpatched & _); [apply get_prop_created|].
    destruct (patched_container _ _ _ _ _ _ _ Hpatched) as (l' & Hc').
    eexists h', s', l', _. split; [exact Hrun | exact Hc'].
Qed.

Lemma transitions_resolve es : forall h state l fs,
  container_at path h state l fs ->
  exists h' state' l' fs',
    transitions actionGroup
      (on (load actionGroup) (onLoad_reducer path))
      (on (loadSuccess actionGroup) (onLoadSuccess_reducer path prop None))
      (on (loadFailure actionGroup) (onLoadFailure_reducer path)) (h, state) es
    = Ok (h', state') /\
    container_at path h' state' l' fs'.
Proof.
  induction es as [|e rest IH]; intros h state l fs Hc.
  - exists h, state, l, fs. by split.
  - destruct (transition_resolves h state l fs e Hc) as (h1 & s1 & l1 & fs1 & Hstep & Hc1).
    destruct (IH _ _ _ _ Hc1) as (h' & s' & l' & fs' & Hrun & Hc').
    exists h', s', l', fs'. split; [|done].
    cbn [transitions]. by rewrite Hstep.
Qed.
End DefaultFlow.



(** ** Copy on write *)

Lemma closed_field h l fs k :
  closed h -> h !! l = Some (Obj fs) ->
  default VUndefined (field_get k fs) <> VRef (length h).
Proof.
  intros Hcl Hl Heq. destruct (field_get k fs) as [v|] eqn:E; simpl in Heq; [|done].
  subst v. apply field_get_in in E.
  specialize (Hcl l (Obj fs) (length h) Hl E). lia.
Qed.

Lemma closed_field_set h l fs k p v :
  closed h -> h !! l = Some (Obj fs) ->
  v <> VRef (length h) ->
  default VUndefined (field_get k (field_set p v fs)) <> VRef (length h).
Proof.
  intros Hcl Hl Hv. destruct (decide (k = p)) as [->|Hne].
  - by rewrite field_get_set_eq.
  - rewrite field_get_set_ne by done. by eapply closed_field.
Qed.

Lemma spine_copied path h' b h root root' c' :
  spine h' b h (Js.split Js.dot path) root root' c' ->
  copied_along path b h' (VRef root').
Proof.
  intros Hs. destruct (spine_container _ _ _ _ _ _ _ Hs) as (lc & vs & _ & _ & _ & Htr & Hall).
  by exists vs.
Qed.



Lemma closedb_closed h : closedb h = true -> closed h.
Proof.
  unfold closedb. rewrite forallb_forall. intros Hall l c l' Hl Hin.
  apply list_elem_of_lookup_2, list_elem_of_In in Hl.
  specialize (Hall c Hl). rewrite forallb_forall in Hall.
  apply list_elem_of_In in Hin. specialize (Hall _ Hin). simpl in Hall.
  by apply bool_decide_eq_true in Hall.
Qed.


(** ** Delegating to a reducer function *)

Lemma forced_fields fs empty :
  let fs' := field_set "loading" (VBool false) (field_set "errors" (VRef empty) fs) in
  field_get "loading" fs' = Some (VBool false) /\
  field_get "errors" fs' = Some (VRef empty) /\
  (forall k, k <> "loading" -> k <> "errors" -> field_get k fs' = field_get k fs).
Proof.
  intros fs'. unfold fs'. split; [|split].
  - apply field_get_set_eq.
  - rewrite field_get_set_ne by done. apply field_get_set_eq.
  - intros k Hl He. by rewrite !field_get_set_ne.
Qed.



Lemma preserves_app (h k : heap) : preserves h (h ++ k).
Proof. intros l c Hl. by apply lookup_app_l_Some. Qed.


(** ** A path of one segment *)

(** The claim of C6 has the reducers complete on a one-segment path, with
    the root as the container.  On [{data: [], loading: false, errors: []}]
    and the path "data" the load reducer throws instead. *)
Lemma single_segment_onLoad_throws :
  exists onLoad onLoadSuccess onLoadFailure onReset,
    onActionGroup todo_actions "data" (fst (literal flat_state [])) (snd (literal flat_state []))
      None
    = (Ok [ onLoad; onLoadSuccess; onLoadFailure; onReset ],
       [ invalid_path_message "data" ]) /\
    apply_to onLoad (JObj [ ("param", JNull) ]) (literal flat_state [])
    = Throw TypeError.
Proof. do 4 eexists. split; [reflexivity | vm_compute; reflexivity]. Qed.

Lemma onLoad_top_level h r fs action h' state' :
  h !! r = Some (Obj fs) ->
  onLoad_reducer EmptyString h (VRef r) action = Ok (h', state') ->
  exists r' fs',
    state' = VRef r' /\ h' !! r' = Some (Obj fs') /\
    field_get "loading" fs' = field_get "loading" fs /\
    field_get "errors" fs' = field_get "errors" fs.
Proof.
  intros Hr Hrun.
  assert (r < length h) as Hlt by (by eapply lookup_lt_Some).
  assert (exists l fsc, container_at EmptyString h (VRef r) l fsc) as (l & fsc & Hc).
  { pose proof Hrun as Hrun'. unfold onLoad_reducer, produce in Hrun'.
    unbind Hrun' as [[h1 x1] returned]. clear Hrun'.
    unbind Hstep as x0. unbind Hstep as [x2 h2]. clear Hstep.
    revert Hstep0. unfold getNestedState, cursor_get. simpl.
    rewrite bool_decide_true by done. unfold latest. simpl. rewrite Hr.
    intros [= <-]. revert Hstep1. unfold cursor_set. simpl.
    destruct (default VUndefined (field_get EmptyString fs)) as [| | | | |l] eqn:Hv; try done.
    unfold same_value. rewrite bool_decide_true by done. simpl. unfold latest. simpl.
    destruct (h !! l) as [[fsc|es ps]|] eqn:Hl; [|done|done].
    intros _. exists l, fsc. split; [|done].
    unfold getNestedState. simpl. rewrite Hr. simpl. by rewrite Hv. }
  destruct (onLoad_patches _ _ _ action _ _ Hc)
    as (h2 & s2 & Hrun2 & Hp & _ & Hpatched & _).
  rewrite Hrun in Hrun2. injection Hrun2 as <- <-.
  destruct Hpatched as [[-> _] | (root & root' & [= <-] & -> & Hs)].
  - exists r, fs. repeat split; try done. by apply Hp.
  - simpl in Hs. destruct Hs as (_ & c & child & child' & c2 & Hc0 & _ & Hset & Hroot' & _).
    rewrite Hr in Hc0. injection Hc0 as <-. simpl in Hset. injection Hset as <-.
    eexists root', _. split; [done|]. split; [exact Hroot'|].
    by rewrite !field_get_set_ne.
Qed.

(** C6, amended: on a one-segment path the diagnostic is printed and
    nothing is thrown while the reducers are built: [onActionGroup] returns
    its four reducers for any state that is an object.  The reducers do not
    take the root state for the container: whenever the load reducer
    returns, the [loading] and [errors] properties at the top level of the
    state are what they were. *)
Theorem single_segment_path actionGroup stateSelector h0 r0 c0 reducerFunction :
  length (Js.split Js.dot stateSelector) = 1 ->
  h0 !! r0 = Some c0 ->
  exists onLoad onLoadSuccess onLoadFailure onReset,
    onActionGroup actionGroup stateSelector h0 (VRef r0) reducerFunction
    = (Ok [ onLoad; onLoadSuccess; onLoadFailure; onReset ],
       [ invalid_path_message stateSelector ]) /\
    forall h r fs action h' state',
      h !! r = Some (Obj fs) ->
      snd onLoad h (VRef r) action = Ok (h', state') ->
      exists r' fs',
        state' = VRef r' /\ h' !! r' = Some (Obj fs') /\
        field_get "loading" fs' = field_get "loading" fs /\
        field_get "errors" fs' = field_get "errors" fs.
Proof.
  intros Hlen Hr0. unfold onActionGroup.
  rewrite (single_segment_decomposition _ Hlen). simpl.
  rewrite getNestedState_walk.
  destruct (Js.split Js.dot stateSelector) as [|seg [|? ?]] eqn:Hsplit; try done.
  simpl. rewrite Hr0. simpl.
  exists (on (load actionGroup) (onLoad_reducer EmptyString)),
    (on (loadSuccess actionGroup) (onLoadSuccess_reducer EmptyString stateSelector reducerFunction)),
    (on (loadFailure actionGroup) (onLoadFailure_reducer EmptyString)),
    (on (reset actionGroup) (onReset_reducer EmptyString stateSelector (cell_get c0 seg))).
  split; [reflexivity|].
  intros h r fs action h' state' Hr Hrun. by eapply (onLoad_top_level h r fs action).
Qed.

Lemma single_segment_path_witness :
  exists onLoad onLoadSuccess onLoadFailure onReset,
    onActionGroup todo_actions "data" (fst (literal flat_state [])) (snd (literal flat_state []))
      None
    = (Ok [ onLoad; onLoadSuccess; onLoadFailure; onReset ],
       [ invalid_path_message "data" ]).
Proof.
  destruct (single_segment_path todo_actions "data" (fst (literal flat_state [])) 2
              (Obj [ ("data", VRef 0); ("loading", VBool false); ("errors", VRef 1) ])
              None eq_refl eq_refl)
    as (a & b & c & d & Hbuilt & _).
  exists a, b, c, d. exact Hbuilt.
Defined.

(** * Further properties *)

(** ** Segments and dots *)

Section Segments.
Implicit Types (s x t : string) (xs : list string).

Lemma occurrences_app c s t :
  occurrences c (s +:+ t) = occurrences c s + occurrences c t.
Proof. induction s as [|d s IH]; simpl; [done | rewrite IH; lia]. Qed.

(** There is one segment more than there are dots. *)
Lemma length_split s : length (Js.split Js.dot s) = S (occurrences Js.dot s).
Proof.
  induction s as [|c s IH]; [done|]. simpl.
  destruct (Ascii.eqb c Js.dot); simpl; [by rewrite IH|].
  pose proof (split_nonempty Js.dot s) as Hne.
  destruct (Js.split Js.dot s); [done | exact IH].
Qed.

Lemma segments_dotfree s :
  Forall (fun x => occurrences Js.dot x = 0) (Js.split Js.dot s).
Proof.
  induction s as [|c s IH]; simpl; [by repeat constructor|].
  destruct (Ascii.eqb c Js.dot) eqn:Hc; [by constructor|].
  destruct (Js.split Js.dot s) as [|seg segs].
  { constructor; [simpl; by rewrite Hc | done]. }
  apply Forall_cons in IH as [Hseg Hsegs]. constructor; [|done].
  simpl. by rewrite Hc.
Qed.

Lemma split_app_dot x t :
  occurrences Js.dot x = 0 ->
  Js.split Js.dot (x +:+ "." +:+ t) = x :: Js.split Js.dot t.
Proof.
  change (x +:+ "." +:+ t) with (x +:+ String Js.dot t).
  induction x as [|c x IH]; simpl; [done|].
  destruct (Ascii.eqb c Js.dot); [done|]. intros Hx. by rewrite IH.
Qed.

Lemma split_dotfree x : occurrences Js.dot x = 0 -> Js.split Js.dot x = [ x ].
Proof.
  induction x as [|c x IH]; simpl; [done|].
  destruct (Ascii.eqb c Js.dot); [done|]. intros Hx. by rewrite IH.
Qed.

(** Splitting a join of dot-free segments gives the segments back. *)
Lemma split_join xs :
  xs <> [] -> Forall (fun x => occurrences Js.dot x = 0) xs ->
  Js.split Js.dot (Js.join "." xs) = xs.
Proof.
  induction xs as [|x [|y ys] IH]; [done| |]; intros _ Hall.
  - apply Forall_cons in Hall as [Hx _]. by apply split_dotfree.
  - apply Forall_cons in Hall as [Hx Hall].
    change (Js.join "." (x :: y :: ys)) with (x +:+ "." +:+ Js.join "." (y :: ys)).
    rewrite split_app_dot by done. by rewrite IH.
Qed.

(** A list of two or more elements ends in two of them. *)
Lemma two_last (xs : list string) :
  1 < length xs -> exists init a b, xs = init ++ [ a; b ].
Proof.
  induction xs as [|x [|y [|z zs]] IH]; simpl; try lia; intros _.
  - by exists [], x, y.
  - destruct IH as (init & a & b & Heq); [simpl; lia|].
    exists (x :: init), a, b. by rewrite Heq.
Qed.
End Segments.

(** ** Path decomposition, continued *)

(** The pieces of a path that contains a dot. *)
Lemma nested_path_parts (stateSelector : string) :
  0 < occurrences Js.dot stateSelector ->
  exists init parent prop,
    Js.split Js.dot stateSelector = init ++ [ parent; prop ] /\
    getNestedStatePathName stateSelector
    = ({| propertyName := prop;
          parentName := parent;
          pathWithoutProperty := Js.join "." (init ++ [ parent ]) |}, []) /\
    stateSelector = Js.join "." (init ++ [ parent ]) +:+ "." +:+ prop /\
    Js.split Js.dot (Js.join "." (init ++ [ parent ])) = init ++ [ parent ] /\
    occurrences Js.dot prop = 0.
Proof.
  intros Hdots.
  destruct (two_last (Js.split Js.dot stateSelector)) as (init & a & b & Hsplit).
  { rewrite length_split. lia. }
  destruct (getNestedStatePathName_nested _ _ _ _ Hsplit) as [Hnames Hjoin].
  pose proof (segments_dotfree stateSelector) as Hfree. rewrite Hsplit in Hfree.
  replace (init ++ [ a; b ]) with ((init ++ [ a ]) ++ [ b ]) in Hfree
    by (by rewrite <- app_assoc).
  apply Forall_app in Hfree as [Hinit Hb]. apply Forall_cons in Hb as [Hb _].
  exists init, a, b. repeat split; try done.
  apply split_join; [by destruct init | done].
Qed.

(** X1: the diagnostic is printed exactly when the path contains no dot,
    and it is then the only thing printed. *)
Theorem diagnostic_iff_no_dot (stateSelector : string) :
  (occurrences Js.dot stateSelector = 0 ->
   snd (getNestedStatePathName stateSelector) = [ invalid_path_message stateSelector ]) /\
  (0 < occurrences Js.dot stateSelector ->
   snd (getNestedStatePathName stateSelector) = []).
Proof.
  split; intros Hdots.
  - rewrite single_segment_decomposition; [done|]. by rewrite length_split, Hdots.
  - by destruct (nested_path_parts _ Hdots) as (init & a & b & _ & -> & _).
Qed.

Lemma diagnostic_iff_no_dot_witness :
  snd (getNestedStatePathName "details") = [ invalid_path_message "details" ] /\
  snd (getNestedStatePathName "details.data") = [].
Proof.
  split.
  - by apply (proj1 (diagnostic_iff_no_dot "details")).
  - apply (proj2 (diagnostic_iff_no_dot "details.data")). simpl. lia.
Defined.

(** X2: a path that contains a dot is cut at its last dot: the property
    name is the dot-free part after it, the parent path the part before it,
    and the parent name the last segment of the parent path. *)
Theorem nested_path_decomposition (stateSelector : string) :
  0 < occurrences Js.dot stateSelector ->
  let names := fst (getNestedStatePathName stateSelector) in
  stateSelector = pathWithoutProperty names +:+ "." +:+ propertyName names /\
  occurrences Js.dot (propertyName names) = 0 /\
  Js.split Js.dot stateSelector
  = Js.split Js.dot (pathWithoutProperty names) ++ [ propertyName names ] /\
  last (Js.split Js.dot (pathWithoutProperty names)) = Some (parentName names).
Proof.
  intros Hdots.
  destruct (nested_path_parts _ Hdots) as (init & a & b & Hsplit & -> & Hcut & Hparts & Hb).
  simpl. rewrite Hparts.
  split; [exact Hcut|]. split; [exact Hb|]. split.
  - by rewrite Hsplit, <- app_assoc.
  - apply last_snoc.
Qed.

Lemma nested_path_decomposition_witness :
  0 < occurrences Js.dot "a.b.c" /\
  "a.b.c" = pathWithoutProperty (fst (getNestedStatePathName "a.b.c")) +:+ "."
            +:+ propertyName (fst (getNestedStatePathName "a.b.c")) /\
  parentName (fst (getNestedStatePathName "a.b.c")) = "b".
Proof.
  assert (0 < occurrences Js.dot "a.b.c") as Hdots by (simpl; lia).
  destruct (nested_path_decomposition "a.b.c" Hdots) as (Hcut & _ & _ & Hparent).
  split; [exact Hdots|]. split; [exact Hcut|]. reflexivity.
Defined.

(** ** Action identifiers, continued *)

Section IdentifierFacts.
Implicit Types (s a : string).

Lemma string_app_longer s t : t <> EmptyString -> s <> s +:+ t.
Proof.
  intros Ht Heq. apply (f_equal String.length) in Heq.
  rewrite string_length_app in Heq. destruct t; [done | simpl in Heq; lia].
Qed.

(** A load identifier is never an API identifier, whatever the source. *)
Lemma load_not_api s a suffix :
  occurrences "]" suffix = 0 -> suffix <> EmptyString ->
  "[" +:+ s +:+ "] " +:+ a <> "[API] " +:+ a +:+ suffix.
Proof.
  intros Hsuffix Hne Heq. injection Heq as Heq.
  assert (occurrences "]" s = 0) as Hs.
  { apply (f_equal (occurrences "]")) in Heq.
    simpl in Heq. rewrite !occurrences_app in Heq. simpl in Heq.
    rewrite ?occurrences_app in Heq. lia. }
  destruct s as [|c1 [|c2 [|c3 [|c4 s]]]]; simpl in Heq; try discriminate.
  - injection Heq as -> -> -> Heq. by apply string_app_longer in Heq.
  - injection Heq as -> -> -> -> _. simpl in Hs. lia.
Qed.
End IdentifierFacts.

(** X3: the four identifiers of one action group are pairwise different,
    for every config (empty strings included). *)
Theorem identifiers_distinct (config : GroupedActionsConfig) :
  NoDup (identifiers (createDataFlowActions config)).
Proof.
  destruct config as [s a]. unfold identifiers, createDataFlowActions. simpl.
  assert (forall x y : string, occurrences "R" x <> occurrences "R" y -> x <> y)
    as HR by (intros x y Hne ->; done).
  assert (forall x y : string, occurrences "F" x <> occurrences "F" y -> x <> y)
    as HF by (intros x y Hne ->; done).
  repeat constructor; rewrite ?elem_of_cons, ?elem_of_nil.
  - intros [Heq | [Heq | [Heq | []]]].
    + by apply (load_not_api s a " Success") in Heq.
    + by apply (load_not_api s a " Failure") in Heq.
    + revert Heq. apply HR. do 3 (simpl; rewrite ?occurrences_app). lia.
  - intros [Heq | [Heq | []]].
    + revert Heq. apply HF. do 3 (simpl; rewrite ?occurrences_app). lia.
    + revert Heq. apply HR. do 3 (simpl; rewrite ?occurrences_app). lia.
  - intros [Heq | []].
    revert Heq. apply HR. do 3 (simpl; rewrite ?occurrences_app). lia.
  - intros [].
Qed.

Section SourceBrackets.
Implicit Types (s a : string).

(** Where the first closing bracket is, when the part before it has none. *)
Lemma first_bracket s1 s2 t1 t2 :
  occurrences "]" s1 = 0 -> occurrences "]" s2 = 0 ->
  s1 +:+ String "]" t1 = s2 +:+ String "]" t2 -> s1 = s2 /\ t1 = t2.
Proof.
  revert s2. induction s1 as [|c s1 IH]; intros [|d s2]; simpl.
  - by intros _ _ [= ->].
  - intros _ Hd [= <- _]. simpl in Hd. lia.
  - intros Hc _ [= -> _]. simpl in Hc. lia.
  - destruct (Ascii.eqb c "]") eqn:Hc; [simpl; lia|].
    destruct (Ascii.eqb d "]") eqn:Hd; [simpl; lia|]. simpl.
    intros H1 H2 [= -> Heq]. destruct (IH s2 H1 H2 Heq) as [-> ->]. done.
Qed.
End SourceBrackets.

(** X4: between configs whose sources contain no closing bracket, the load
    identifier determines the config, and so does the reset identifier. *)
Theorem load_identifier_determines_config (c1 c2 : GroupedActionsConfig) :
  occurrences "]" (source c1) = 0 ->
  occurrences "]" (source c2) = 0 ->
  (load (createDataFlowActions c1) = load (createDataFlowActions c2) -> c1 = c2) /\
  (reset (createDataFlowActions c1) = reset (createDataFlowActions c2) -> c1 = c2).
Proof.
  destruct c1 as [s1 a1], c2 as [s2 a2]. simpl. intros H1 H2. split.
  - intros [= Heq]. destruct (first_bracket _ _ _ _ H1 H2 Heq) as [-> [= ->]]. done.
  - intros [= Heq]. destruct (first_bracket _ _ _ _ H1 H2 Heq) as [-> [= Ha]].
    apply string_app_inv_tail in Ha as ->. done.
Qed.

Lemma load_identifier_determines_config_witness :
  occurrences "]" "Todo" = 0 /\ occurrences "]" "User" = 0 /\
  load (createDataFlowActions {| source := "Todo"; action := "Load" |})
  <> load (createDataFlowActions {| source := "User"; action := "Load" |}).
Proof.
  split; [reflexivity|]. split; [reflexivity|]. intros Heq.
  destruct (load_identifier_determines_config
              {| source := "Todo"; action := "Load" |}
              {| source := "User"; action := "Load" |} eq_refl eq_refl) as [Hload _].
  specialize (Hload Heq). discriminate Hload.
Defined.

(** ** Reading through a path *)

(** X5: reading a path that contains a dot is reading the parent path and
    then the property: what [getNestedState] returns for the whole selector
    is the property [propertyName] of what it returns for
    [pathWithoutProperty]. *)
Theorem getNestedState_through_container {A : Type}
  (index : A -> string -> result A) (stateSelector : string) (nestedState : A) :
  0 < occurrences Js.dot stateSelector ->
  let names := fst (getNestedStatePathName stateSelector) in
  getNestedState index stateSelector nestedState
  = (container ← getNestedState index (pathWithoutProperty names) nestedState;
     index container (propertyName names)).
Proof.
  intros Hdots names. unfold names.
  destruct (nested_path_parts _ Hdots) as (init & a & b & Hsplit & -> & _ & Hparts & _).
  simpl. rewrite !getNestedState_walk, Hparts, Hsplit.
  replace (init ++ [ a; b ]) with ((init ++ [ a ]) ++ [ b ]) by (by rewrite <- app_assoc).
  rewrite walk_app.
  destruct (walk index (init ++ [ a ]) nestedState) as [container|]; simpl; [|done].
  apply bind_Ok_r.
Qed.

Lemma getNestedState_through_container_witness :
  0 < occurrences Js.dot "list.data" /\
  getNestedState (get_prop (fst idle)) "list.data" (snd idle)
  = (container ← getNestedState (get_prop (fst idle)) "list" (snd idle);
     get_prop (fst idle) container "data").
Proof.
  assert (0 < occurrences Js.dot "list.data") as Hdots by (simpl; lia).
  split; [exact Hdots|].
  exact (getNestedState_through_container (get_prop (fst idle)) "list.data"
           (snd idle) Hdots).
Defined.



(** ** When the container is not there *)

Section Mirror.
Implicit Types (h : heap) (l : loc) (x : cursor) (v : val).

Lemma get_prop_throws h v k e : get_prop h v k = Throw e -> e = TypeError.
Proof.
  destruct v as [| | | | |l]; simpl; try done; try by intros [= <-].
  destruct (h !! l); [done | by intros [= <-]].
Qed.

Lemma walk_throws h segs : forall v e,
  walk (get_prop h) segs v = Throw e -> e = TypeError.
Proof.
  induction segs as [|p rest IH]; intros v e; simpl; [done|].
  destruct (get_prop h v p) as [w|e'] eqn:Hg; simpl.
  - apply IH.
  - intros [= <-]. by eapply get_prop_throws.
Qed.

Lemma enter_mirrors h v ps :
  mirrors h {| at_ := enter (length h) v; parents := ps |} v.
Proof.
  unfold mirrors; simpl. destruct v as [| | | | |l]; simpl; try (split; [done|]; intros; done).
  destruct (decide (l < length h)).
  - by rewrite bool_decide_true.
  - rewrite bool_decide_false by done. simpl. split; [done|].
    intros ? [= <-]. apply lookup_ge_None. lia.
Qed.

(** One read through the draft is one read in the state. *)
Lemma cursor_get_mirrors b h x v k :
  mirrors h x v ->
  match get_prop h v k with
  | Ok v' => exists x', cursor_get b h x k = Ok x' /\ mirrors h x' v'
  | Throw e => cursor_get b h x k = Throw e
  end.
Proof.
  unfold mirrors, cursor_get. destruct (at_ x) as [w|n].
  - intros [-> Hdangling]. destruct (get_prop h v k) as [v'|e] eqn:Hg; simpl; [|done].
    assert (forall l, v' <> VRef l) as Hprim.
    { intros l ->. apply get_prop_ref in Hg as (r & c & -> & Hr & _).
      by rewrite (Hdangling r eq_refl) in Hr. }
    eexists; split; [done|]. simpl.
    destruct v' as [| | | | |l]; simpl; try (split; [done|]; intros; done).
    by destruct (Hprim l).
  - intros [Hcopy ->]. simpl. unfold latest. rewrite Hcopy.
    destruct (h !! base_ n) as [c|]; [|done].
    eexists; split; [done|]. simpl.
    destruct (cell_get c k) as [| | | | |l]; simpl; try (split; [done|]; intros; done).
    unfold same_value. by rewrite bool_decide_true.
Qed.

Lemma walk_mirrors b h segs : forall x v,
  mirrors h x v ->
  match walk (get_prop h) segs v with
  | Ok v' => exists x', walk (cursor_get b h) segs x = Ok x' /\ mirrors h x' v'
  | Throw e => walk (cursor_get b h) segs x = Throw e
  end.
Proof.
  induction segs as [|p rest IH]; intros x v Hm; simpl; [eauto|].
  pose proof (cursor_get_mirrors b h x v p Hm) as Hstep.
  destruct (get_prop h v p) as [v1|e]; simpl.
  - destruct Hstep as (x1 & -> & Hm1). simpl. by apply IH.
  - by rewrite Hstep.
Qed.

(** What the reducers resolve on the draft is what [getNestedState] reads
    in the state. *)
Lemma getNestedState_mirrors h path state :
  match getNestedState (get_prop h) path state with
  | Ok v =>
      exists x,
        getNestedState (cursor_get (length h) h) path
          {| at_ := enter (length h) state; parents := [] |} = Ok x /\
        mirrors h x v
  | Throw e =>
      e = TypeError /\
      getNestedState (cursor_get (length h) h) path
        {| at_ := enter (length h) state; parents := [] |} = Throw TypeError
  end.
Proof.
  rewrite !getNestedState_walk.
  pose proof (walk_mirrors (length h) h (Js.split Js.dot path) _ state
                (enter_mirrors h state [])) as Hw.
  destruct (walk (get_prop h) (Js.split Js.dot path) state) as [v|e] eqn:Hplain; [done|].
  apply walk_throws in Hplain as ->. by split.
Qed.

(** Nothing can be assigned to what is not an object of the heap. *)
Lemma cursor_set_not_object h x v k w :
  mirrors h x v -> (forall l, v = VRef l -> h !! l = None) ->
  cursor_set h x k w = Throw TypeError.
Proof.
  unfold mirrors, cursor_set. intros Hm Hno. destruct (at_ x) as [u|n].
  - destruct Hm as [-> _]. destruct v as [| | | | |l]; try done.
    by rewrite (Hno l eq_refl).
  - destruct Hm as [Hcopy ->]. unfold latest. rewrite Hcopy.
    by rewrite (Hno _ eq_refl).
Qed.

(** The draft of an array takes no named property, and stays the draft of
    an array whatever is written to it. *)
Lemma array_draft_rejects h x k w :
  array_draft h x -> index_key k = None -> k <> "length" ->
  cursor_set h x k w = Throw ImmerError.
Proof.
  intros (n & c & c0 & Hat & Hlat & Hbase & Hobj) Hk Hlen.
  unfold cursor_set. rewrite Hat, Hlat, Hbase.
  destruct c as [fs|es ps]; [done|]. simpl. rewrite Hk. simpl.
  by destruct (String.eqb_spec k "length").
Qed.

Lemma array_draft_set h x k w x' h' :
  array_draft h x -> cursor_set h x k w = Ok (x', h') ->
  h' = h /\ array_draft h x'.
Proof.
  intros (n & c & c0 & Hat & Hlat & Hbase & Hobj).
  unfold cursor_set. rewrite Hat, Hlat, Hbase.
  destruct (negb (draft_accepts c k)); [done|].
  destruct (_ && _).
  - intros [= <- <-]. split; [done|]. by exists n, c, c0.
  - destruct (cell_set c k w) as [c'|] eqn:Hset; simpl; [|done].
    intros [= <- <-]. split; [done|].
    exists {| base_ := base_ n; copy_ := Some c' |}, c', c0. repeat split; try done.
    destruct c as [fs|es ps]; [done|]. simpl in Hset.
    destruct (index_key k); [by injection Hset as <-|].
    destruct (String.eqb k "length").
    + destruct w; try done. destruct (bool_decide _); [by injection Hset as <-|done].
    + by injection Hset as <-.
Qed.

Lemma array_draft_alloc h x c : array_draft h x -> array_draft (h ++ [ c ]) x.
Proof.
  intros (n & c1 & c0 & Hat & Hlat & Hbase & Hobj). exists n, c1, c0.
  repeat split; try done.
  - unfold latest in *. destruct (copy_ n); [done|]. by apply lookup_app_l_Some.
  - by apply lookup_app_l_Some.
Qed.

Lemma mirrors_array h x l es ps :
  mirrors h x (VRef l) -> h !! l = Some (Arr es ps) -> array_draft h x.
Proof.
  unfold mirrors. intros Hm Hl. destruct (at_ x) as [w|n] eqn:Hat.
  - destruct Hm as [_ Hdangling]. by rewrite (Hdangling l eq_refl) in Hl.
  - destruct Hm as [Hcopy [= ->]]. exists n, (Arr es ps), (Arr es ps).
    unfold latest. by rewrite Hcopy.
Qed.
End Mirror.

(** Without an object of the heap at the end of the parent path, the four
    reducers throw a type error. *)
Lemma no_object_no_state path prop initial h state action :
  (forall l, getNestedState (get_prop h) path state = Ok (VRef l) -> h !! l = None) ->
  onLoad_reducer path h state action = Throw TypeError /\
  onLoadSuccess_reducer path prop None h state action = Throw TypeError /\
  onLoadFailure_reducer path h state action = Throw TypeError /\
  onReset_reducer path prop initial h state action = Throw TypeError.
Proof.
  intros Hno. pose proof (getNestedState_mirrors h path state) as Hm.
  unfold onLoad_reducer, onLoadSuccess_reducer, onLoadFailure_reducer,
    onReset_reducer, produce, mbind, result_bind.
  destruct (getNestedState (get_prop h) path state) as [v|e].
  - destruct Hm as (x & -> & Hm).
    assert (forall k w, cursor_set h x k w = Throw TypeError) as Hset.
    { intros k w. apply (cursor_set_not_object h x v); [done|].
      intros l ->. by apply Hno. }
    rewrite !Hset. repeat split; try done.
    destruct (get_prop h action "data") as [d|e] eqn:Hd; [by rewrite Hset|].
    by apply get_prop_throws in Hd as ->.
  - destruct Hm as (_ & ->). done.
Qed.



(** A container that is an array makes the four reducers throw as well:
    immer refuses the named property [errors] on the draft of an array. *)
Lemma reducers_throw_on_array path prop initial h state action l es ps :
  getNestedState (get_prop h) path state = Ok (VRef l) ->
  h !! l = Some (Arr es ps) ->
  (exists e, onLoad_reducer path h state action = Throw e) /\
  (exists e, onLoadSuccess_reducer path prop None h state action = Throw e) /\
  (exists e, onLoadFailure_reducer path h state action = Throw e) /\
  (exists e, onReset_reducer path prop initial h state action = Throw e).
Proof.
  intros Hread Hl. pose proof (getNestedState_mirrors h path state) as Hm.
  rewrite Hread in Hm. destruct Hm as (x & Hx & Hm).
  pose proof (mirrors_array _ _ _ _ _ Hm Hl) as Harr.
  assert (forall h' x' w, array_draft h' x' ->
            cursor_set h' x' "errors" w = Throw ImmerError) as Herrors.
  { intros h' x' w Hx'. by apply array_draft_rejects. }
  assert (forall w, cursor_set h x "loading" w = Throw ImmerError) as Hloading.
  { intros w. by apply array_draft_rejects. }
  unfold onLoad_reducer, onLoadSuccess_reducer, onLoadFailure_reducer,
    onReset_reducer, produce, mbind, result_bind, alloc.
  rewrite Hx, !Hloading. split; [eauto|]. split; [|split; [eauto|]].
  - destruct (get_prop h action "data") as [d|e]; [|eauto].
    destruct (cursor_set h x prop d) as [[x2 h2]|e] eqn:Hset; [|eauto].
    destruct (array_draft_set _ _ _ _ _ _ Harr Hset) as [-> Harr2].
    rewrite Herrors by (by apply array_draft_alloc). eauto.
  - destruct (cursor_set h x prop initial) as [[x2 h2]|e] eqn:Hset; [|eauto].
    destruct (array_draft_set _ _ _ _ _ _ Harr Hset) as [-> Harr2].
    rewrite Herrors by (by apply array_draft_alloc). eauto.
Qed.



(** ** What the reducers write *)

(** X9: on a state whose container resolves, the load reducer returns a
    state whose container has [loading = true] and, as [errors], an empty
    array made by the call (whatever was there before), with every other
    property of the container, the data among them, holding the value it
    held. *)
Theorem onLoad_marks_loading path h state action l fs :
  container_at path h state l fs ->
  exists h' state' l' fs' empty,
    onLoad_reducer path h state action = Ok (h', state') /\
    container_at path h' state' l' fs' /\
    field_get "loading" fs' = Some (VBool true) /\
    field_get "errors" fs' = Some (VRef empty) /\
    h' !! empty = Some empty_array /\ length h <= empty /\
    (forall k, k <> "loading" -> k <> "errors" -> field_get k fs' = field_get k fs).
Proof.
  intros Hc.
  destruct (onLoad_patches _ _ _ action _ _ Hc)
    as (h' & state' & Hrun & _ & Hempty & Hpatched & _).
  destruct (patched_container _ _ _ _ _ _ _ Hpatched) as (l' & Hc').
  eexists h', state', l', _, (length h). split; [exact Hrun|]. split; [exact Hc'|].
  split; [|split; [|split; [exact Hempty|split; [done|]]]].
  - rewrite field_get_set_ne by done. apply field_get_set_eq.
  - apply field_get_set_eq.
  - intros k Hl He. by rewrite !field_get_set_ne.
Qed.

Lemma onLoad_marks_loading_witness :
  exists h' state' l' fs',
    onLoad_reducer "list" (fst idle) (snd idle) VUndefined = Ok (h', state') /\
    container_at "list" h' state' l' fs' /\
    field_get "loading" fs' = Some (VBool true) /\
    field_get "data" fs' = Some (VRef 0).
Proof.
  destruct (onLoad_marks_loading "list" (fst idle) (snd idle) VUndefined 2
              [ ("data", VRef 0); ("loading", VBool false); ("errors", VRef 1) ])
    as (h' & state' & l' & fs' & empty & Hrun & Hc & Hloading & _ & _ & _ & Hkeep).
  - split; reflexivity.
  - exists h', state', l', fs'. split; [exact Hrun|]. split; [exact Hc|].
    split; [exact Hloading|]. by rewrite Hkeep.
Defined.

(** X10: without a reducer function, the success reducer stores the
    payload's data under the property name, sets [loading = false] and makes
    [errors] a new empty array, and leaves every other property of the
    container as it was.  The bookkeeping is written last: a property name
    that is [errors] or [loading] ends up holding the bookkeeping value, not
    the data. *)
Theorem onLoadSuccess_stores_data path prop h state success data l fs :
  container_at path h state l fs ->
  get_prop h success "data" = Ok data ->
  exists h' state' l' fs' empty,
    onLoadSuccess_reducer path prop None h state success = Ok (h', state') /\
    container_at path h' state' l' fs' /\
    field_get "loading" fs' = Some (VBool false) /\
    field_get "errors" fs' = Some (VRef empty) /\
    h' !! empty = Some empty_array /\ length h <= empty /\
    (prop <> "loading" -> prop <> "errors" -> field_get prop fs' = Some data) /\
    (forall k, k <> prop -> k <> "loading" -> k <> "errors" ->
               field_get k fs' = field_get k fs).
Proof.
  intros Hc Hdata.
  destruct (onLoadSuccess_patches _ prop _ _ success data _ _ Hc Hdata)
    as (h' & state' & Hrun & _ & Hempty & Hpatched & _).
  destruct (patched_container _ _ _ _ _ _ _ Hpatched) as (l' & Hc').
  eexists h', state', l', _, (length h). split; [exact Hrun|]. split; [exact Hc'|].
  split; [|split; [|split; [exact Hempty|split; [done|split]]]].
  - apply field_get_set_eq.
  - rewrite field_get_set_ne by done. apply field_get_set_eq.
  - intros Hl He. rewrite !field_get_set_ne by done. apply field_get_set_eq.
  - intros k Hp Hl He. by rewrite !field_get_set_ne.
Qed.

Lemma onLoadSuccess_stores_data_witness :
  let '(h, success) := literal (JObj [ ("data", JNum 5) ]) (fst idle) in
  exists h' state' l' fs',
    onLoadSuccess_reducer "list" "data" None h (snd idle) success = Ok (h', state') /\
    container_at "list" h' state' l' fs' /\
    field_get "data" fs' = Some (VNum 5).
Proof.
  simpl.
  destruct (onLoadSuccess_stores_data "list" "data"
              (fst (literal (JObj [ ("data", JNum 5) ]) (fst idle))) (snd idle)
              (VRef 4) (VNum 5) 2
              [ ("data", VRef 0); ("loading", VBool false); ("errors", VRef 1) ])
    as (h' & state' & l' & fs' & empty & Hrun & Hc & _ & _ & _ & _ & Hdata & _).
  - split; reflexivity.
  - reflexivity.
  - exists h', state', l', fs'. split; [exact Hrun|]. split; [exact Hc|].
    by apply Hdata.
Defined.

Lemma field_set_absent k v (fs : list (string * val)) :
  field_get k fs = None -> field_set k v fs = fs ++ [ (k, v) ].
Proof.
  induction fs as [|[k' v'] fs IH]; simpl; [done|].
  destruct (String.eqb k' k); [done|]. intros H. by rewrite IH.
Qed.

(** X11: a container that has neither [loading] nor [errors] is given both
    by the load reducer, after the properties it has, in that order. *)
Theorem onLoad_adds_bookkeeping path h state action l fs :
  container_at path h state l fs ->
  field_get "loading" fs = None ->
  field_get "errors" fs = None ->
  exists h' state' l' empty,
    onLoad_reducer path h state action = Ok (h', state') /\
    container_at path h' state' l'
      (fs ++ [ ("loading", VBool true); ("errors", VRef empty) ]) /\
    h' !! empty = Some empty_array.
Proof.
  intros Hc Hl He.
  destruct (onLoad_patches _ _ _ action _ _ Hc)
    as (h' & state' & Hrun & _ & Hempty & Hpatched & _).
  destruct (patched_container _ _ _ _ _ _ _ Hpatched) as (l' & Hc').
  exists h', state', l', (length h). split; [exact Hrun|]. split; [|exact Hempty].
  rewrite (field_set_absent "loading") in Hc' by done.
  rewrite (field_set_absent "errors") in Hc'.
  - by rewrite <- app_assoc in Hc'.
  - rewrite <- (field_set_absent "loading" (VBool true)) by done.
    by rewrite field_get_set_ne.
Qed.

Lemma onLoad_adds_bookkeeping_witness :
  let '(h, state) := literal (JObj [ ("list", JObj [ ("data", JNull) ]) ]) [] in
  exists st',
    onLoad_reducer "list" h state VUndefined = Ok st' /\
    view st' = Some (JObj [ ("list", JObj [ ("data", JNull);
                                            ("loading", JBool true);
                                            ("errors", JArr []) ]) ]).
Proof.
  simpl.
  destruct (onLoad_adds_bookkeeping "list"
              (fst (literal (JObj [ ("list", JObj [ ("data", JNull) ]) ]) []))
              (VRef 1) VUndefined 0 [ ("data", VNull) ])
    as (h' & state' & l' & empty & Hrun & _).
  - split; reflexivity.
  - reflexivity.
  - reflexivity.
  - exists (h', state'). split; [exact Hrun|].
    vm_compute in Hrun. injection Hrun as <- <-. reflexivity.
Defined.

(** ** Sharing and sequencing *)

Lemma patched_siblings path b h state h' state' fs' r root_fields :
  patched path b h state h' state' fs' ->
  preserves h h' ->
  state = VRef r -> h !! r = Some (Obj root_fields) ->
  siblings_kept path root_fields h' state'.
Proof.
  unfold siblings_kept.
  intros [[-> _] | (root & root' & -> & -> & Hs)] Hp Hstate Hr.
  - exists r, root_fields. split; [done|]. split; [by apply Hp | done].
  - injection Hstate as ->.
    pose proof (split_nonempty Js.dot path) as Hne.
    destruct (Js.split Js.dot path) as [|k rest]; [done|]. simpl in Hs.
    destruct Hs as (_ & c & child & child' & c2 & Hc & _ & Hset & Hroot' & _).
    rewrite Hr in Hc. injection Hc as <-. simpl in Hset. injection Hset as <-.
    eexists root', _. split; [done|]. split; [exact Hroot'|].
    intros k0 Hk0. apply field_get_set_ne. intros ->. by apply Hk0.
Qed.

(** X12: structural sharing at the root.  Whatever a reducer built without
    a reducer function returns, the root object of the new state holds,
    under every key other than the first segment of the path, the very
    value the old root held: the branches the path does not enter are not
    copied. *)
Theorem reducers_share_siblings path prop initial h r root_fields a action_fields
  l fs :
  h !! r = Some (Obj root_fields) ->
  h !! a = Some (Obj action_fields) ->
  container_at path h (VRef r) l fs ->
  (exists h' state',
     onLoad_reducer path h (VRef r) (VRef a) = Ok (h', state') /\
     siblings_kept path root_fields h' state') /\
  (exists h' state',
     onLoadSuccess_reducer path prop None h (VRef r) (VRef a) = Ok (h', state') /\
     siblings_kept path root_fields h' state') /\
  (exists h' state',
     onLoadFailure_reducer path h (VRef r) (VRef a) = Ok (h', state') /\
     siblings_kept path root_fields h' state') /\
  (exists h' state',
     onReset_reducer path prop initial h (VRef r) (VRef a) = Ok (h', state') /\
     siblings_kept path root_fields h' state').
Proof.
  intros Hr Ha Hc.
  assert (forall k, get_prop h (VRef a) k = Ok (cell_get (Obj action_fields) k)) as Hget.
  { intros k. simpl. by rewrite Ha. }
  split; [|split; [|split]].
  - destruct (onLoad_patches _ _ _ (VRef a) _ _ Hc)
      as (h' & state' & Hrun & Hp & _ & Hpatched & _).
    exists h', state'. split; [exact Hrun|]. by eapply patched_siblings.
  - destruct (onLoadSuccess_patches _ prop _ _ (VRef a) _ _ _ Hc (Hget "data"))
      as (h' & state' & Hrun & Hp & _ & Hpatched & _).
    exists h', state'. split; [exact Hrun|]. by eapply patched_siblings.
  - destruct (onLoadFailure_patches _ _ _ (VRef a) _ _ _ Hc (Hget "errors"))
      as (h' & state' & Hrun & Hp & Hpatched & _).
    exists h', state'. split; [exact Hrun|]. by eapply patched_siblings.
  - destruct (onReset_patches _ prop initial _ _ (VRef a) _ _ Hc)
      as (h' & state' & Hrun & Hp & _ & Hpatched & _).
    exists h', state'. split; [exact Hrun|]. by eapply patched_siblings.
Qed.

Lemma reducers_share_siblings_witness :
  let '(h0, state) :=
    literal (JObj [ ("user", JObj [ ("name", JStr "x") ]);
                    ("list", JObj [ ("data", JNull) ]) ]) [] in
  let '(h, action) := literal (JObj [ ("errors", JStr "network") ]) h0 in
  exists h' state',
    onLoadFailure_reducer "list" h state action = Ok (h', state') /\
    get_prop h' state' "user" = get_prop h state "user".
Proof.
  simpl.
  destruct (reducers_share_siblings "list" "data" VNull
              [ Obj [ ("name", VStr "x") ]; Obj [ ("data", VNull) ];
                Obj [ ("user", VRef 0); ("list", VRef 1) ];
                Obj [ ("errors", VStr "network") ] ]
              2 [ ("user", VRef 0); ("list", VRef 1) ] 3 [ ("errors", VStr "network") ]
              1 [ ("data", VNull) ] eq_refl eq_refl)
    as (_ & _ & (h' & state' & Hrun & (root' & fs' & -> & Hroot' & Hkeep)) & _).
  - split; reflexivity.
  - exists h', (VRef root'). split; [exact Hrun|].
    simpl. rewrite Hroot'. simpl. rewrite (Hkeep "user"); [reflexivity | discriminate].
Defined.

Lemma transitions_app actionGroup onLoad onLoadSuccess onLoadFailure es : forall st e,
  transitions actionGroup onLoad onLoadSuccess onLoadFailure st (es ++ [ e ])
  = (st' ← transitions actionGroup onLoad onLoadSuccess onLoadFailure st es;
     transition actionGroup onLoad onLoadSuccess onLoadFailure st' e).
Proof.
  induction es as [|e0 es IH]; intros st e; simpl.
  - apply bind_Ok_r.
  - destruct (transition actionGroup onLoad onLoadSuccess onLoadFailure st e0); simpl;
      [apply IH | done].
Qed.

(** X13: every transition overwrites both bookkeeping properties, so after
    any sequence of load, success and failure events (no reducer function,
    any payloads) from a state whose container resolves, [loading] and
    [errors] are decided by the last event alone: [loading] is true exactly
    after a load, and [errors] is the payload's errors after a failure and
    a new empty array otherwise. *)
Theorem last_event_decides actionGroup path prop es e h state l fs :
  container_at path h state l fs ->
  exists h' state' l' fs',
    transitions actionGroup
      (on (load actionGroup) (onLoad_reducer path))
      (on (loadSuccess actionGroup) (onLoadSuccess_reducer path prop None))
      (on (loadFailure actionGroup) (onLoadFailure_reducer path))
      (h, state) (es ++ [ e ]) = Ok (h', state') /\
    container_at path h' state' l' fs' /\
    field_get "loading" fs' = Some (VBool (loading_after e)) /\
    match e with
    | LoadFailureEvent errors => field_get "errors" fs' = Some errors
    | _ => exists empty,
             field_get "errors" fs' = Some (VRef empty) /\ h' !! empty = Some empty_array
    end.
Proof.
  intros Hc.
  destruct (transitions_resolve actionGroup path prop es h state l fs Hc)
    as (h1 & s1 & l1 & fs1 & Hrun & Hc1).
  rewrite transitions_app, Hrun. simpl.
  destruct e as [param|data|errors]; simpl; unfold create_action, alloc.
  - eapply container_at_preserves in Hc1; [|apply preserves_alloc].
    destruct (onLoad_patches _ _ _ (VRef (length h1)) _ _ Hc1)
      as (h' & s' & Hstep & _ & Hempty & Hpatched & _).
    destruct (patched_container _ _ _ _ _ _ _ Hpatched) as (l' & Hc').
    eexists h', s', l', _. split; [exact Hstep|]. split; [exact Hc'|]. split.
    + rewrite field_get_set_ne by done. apply field_get_set_eq.
    + eexists. split; [apply field_get_set_eq | exact Hempty].
  - eapply container_at_preserves in Hc1; [|apply preserves_alloc].
    destruct (onLoadSuccess_patches _ prop _ _ (VRef (length h1)) data _ _ Hc1)
      as (h' & s' & Hstep & _ & Hempty & Hpatched & _); [apply get_prop_created|].
    destruct (patched_container _ _ _ _ _ _ _ Hpatched) as (l' & Hc').
    eexists h', s', l', _. split; [exact Hstep|]. split; [exact Hc'|]. split.
    + apply field_get_set_eq.
    + eexists. split; [|exact Hempty].
      rewrite field_get_set_ne by done. apply field_get_set_eq.
  - eapply container_at_preserves in Hc1; [|apply preserves_alloc].
    destruct (onLoadFailure_patches _ _ _ (VRef (length h1)) errors _ _ Hc1)
      as (h' & s' & Hstep & _ & Hpatched & _); [apply get_prop_created|].
    destruct (patched_container _ _ _ _ _ _ _ Hpatched) as (l' & Hc').
    eexists h', s', l', _. split; [exact Hstep|]. split; [exact Hc'|]. split.
    + rewrite field_get_set_ne by done. apply field_get_set_eq.
    + apply field_get_set_eq.
Qed.

Lemma last_event_decides_witness :
  exists h' state' l' fs',
    transitions todo_actions
      (on (load todo_actions) (onLoad_reducer "list"))
      (on (loadSuccess todo_actions) (onLoadSuccess_reducer "list" "data" None))
      (on (loadFailure todo_actions) (onLoadFailure_reducer "list"))
      idle ([ LoadSuccessEvent (VNum 1); LoadEvent VNull ]
            ++ [ LoadFailureEvent (VStr "late") ]) = Ok (h', state') /\
    container_at "list" h' state' l' fs' /\
    field_get "loading" fs' = Some (VBool false) /\
    field_get "errors" fs' = Some (VStr "late").
Proof.
  destruct (last_event_decides todo_actions "list" "data"
              [ LoadSuccessEvent (VNum 1); LoadEvent VNull ]
              (LoadFailureEvent (VStr "late")) (fst idle) (snd idle) 2
              [ ("data", VRef 0); ("loading", VBool false); ("errors", VRef 1) ])
    as (h' & state' & l' & fs' & Hrun & Hc & Hloading & Herrors).
  - split; reflexivity.
  - by exists h', state', l', fs'.
Defined.

(** ** What the reducers read of their action *)

(** Before anything has been allocated by the recipe, a write goes to a
    draft: the heap stays as it is. *)
Lemma first_write_keeps_heap h x k w x' h' :
  plain_is_new (length h) x -> cursor_set h x k w = Ok (x', h') -> h' = h.
Proof.
  intros Hnew. unfold cursor_set. destruct (at_ x) as [v|n] eqn:Hat.
  - destruct v as [| | | | |l]; try done.
    specialize (Hnew l Hat). destruct (h !! l) as [c|] eqn:Hl; [|done].
    apply lookup_lt_Some in Hl. lia.
  - destruct (latest h n) as [c|]; [|done].
    destruct (h !! base_ n) as [c0|]; [|done].
    destruct (negb (draft_accepts c k)); [done|].
    destruct (_ && _); [by intros [= _ <-]|].
    destruct (cell_set c k w); simpl; [by intros [= _ <-] | done].
Qed.

(** X14: the success reducer depends on its action through [action.data]
    alone, and the failure reducer through [action.errors] alone: two
    actions that agree there (whatever their [type] and other props) give
    the same result, with or without a reducer function. *)
Theorem reducers_read_one_prop path prop reducerFunction h state action1 action2 :
  (get_prop h action1 "data" = get_prop h action2 "data" ->
   onLoadSuccess_reducer path prop reducerFunction h state action1
   = onLoadSuccess_reducer path prop reducerFunction h state action2) /\
  (get_prop h action1 "errors" = get_prop h action2 "errors" ->
   onLoadFailure_reducer path h state action1
   = onLoadFailure_reducer path h state action2).
Proof.
  split; intros Hsame.
  - unfold onLoadSuccess_reducer, produce. f_equal.
    destruct reducerFunction as [f|]; unfold mbind, result_bind.
    + by rewrite Hsame.
    + destruct (getNestedState _ _ _) as [x|]; [|done]. by rewrite Hsame.
  - unfold onLoadFailure_reducer, produce. f_equal. unfold mbind, result_bind.
    destruct (getNestedState _ _ _) as [x|] eqn:Hx; [|done].
    apply getNestedState_safe in Hx.
    destruct (cursor_set h x "loading" (VBool false)) as [[x2 h2]|] eqn:Hset; [|done].
    apply first_write_keeps_heap in Hset as ->; [|done]. by rewrite Hsame.
Qed.

Lemma reducers_read_one_prop_witness :
  let '(h1, a1) := literal (JObj [ ("errors", JStr "network"); ("type", JStr "A") ])
                     (fst idle) in
  let '(h, a2) := literal (JObj [ ("extra", JNull); ("errors", JStr "network") ]) h1 in
  onLoadFailure_reducer "list" h (snd idle) a1
  = onLoadFailure_reducer "list" h (snd idle) a2.
Proof.
  simpl.
  apply (proj2 (reducers_read_one_prop "list" "data" None _ (snd idle) (VRef 4) (VRef 5))).
  reflexivity.
Defined.
